(** * Colour flocking: the [Block] agent of [flock.js]

    A [Block] carries an RGB colour that moves through the colour cube under
    the three Boids rules.  JavaScript numbers are modelled as real numbers:
    arithmetic is exact, and there is no rounding, no infinity and no NaN.
    Every method of the source mutates [this]; here a method takes the block
    and returns the block after the call.

    Where rounding decides a property (the order in which a rule adds up
    its peers), the module [F64] has the same methods over binary64, the
    numbers JavaScript computes with. *)

From Stdlib Require Import Reals R_Ifp Lra Lia ZArith List Permutation.
From Stdlib Require PrimFloat.
Import ListNotations.
Open Scope R_scope.

(** ** Vectors *)

Module P5.

(** Modelled from the spec: the vector type [p5.Vector] (the spec's
    ColorVector) and its operations add, sub, mult, div, magSq, mag,
    normalize and limit come from the p5.js library, which is not part of
    the repository.  The spec lists them as add, subtract, scale, magnitude,
    normalize (a no-op on the zero vector, the division being guarded) and
    limit-to-length; the definitions below follow p5.js: [normalize] tests
    [len !== 0], [limit] tests [magSq > max * max], [div] leaves the vector
    alone when the divisor is 0. *)
Record Vector : Type := createVector { x : R; y : R; z : R }.

Definition add (v w : Vector) : Vector :=
  createVector (x v + x w) (y v + y w) (z v + z w).

Definition sub (v w : Vector) : Vector :=
  createVector (x v - x w) (y v - y w) (z v - z w).

Definition mult (v : Vector) (n : R) : Vector :=
  createVector (x v * n) (y v * n) (z v * n).

Definition div (v : Vector) (n : R) : Vector :=
  if Req_dec_T n 0 then v
  else createVector (x v / n) (y v / n) (z v / n).

Definition magSq (v : Vector) : R :=
  x v * x v + y v * y v + z v * z v.

Definition mag (v : Vector) : R := sqrt (magSq v).

Definition normalize (v : Vector) : Vector :=
  let len := mag v in
  if Req_dec_T len 0 then v else mult v (1 / len).

Definition limit (v : Vector) (max : R) : Vector :=
  let mSq := magSq v in
  if Rgt_dec mSq (max * max) then mult (div v (sqrt mSq)) max else v.

Definition set (_ : Vector) (a b c : R) : Vector := createVector a b c.

(** Assignments to one component: [v.x = a] and the like. *)
Definition set_x (v : Vector) (a : R) : Vector := createVector a (y v) (z v).
Definition set_y (v : Vector) (a : R) : Vector := createVector (x v) a (z v).
Definition set_z (v : Vector) (a : R) : Vector := createVector (x v) (y v) a.

Definition zero : Vector := createVector 0 0 0.

End P5.

Abbreviation Vector := P5.Vector.
Abbreviation createVector := P5.createVector.

(** Modelled from the spec: p5's [floor] and [random(max)] are library
    calls.  The random source supplies a uniform value in [0, max); a draw
    is a number [u] of the unit interval and [random max u] is [u * max]. *)
Definition floor (r : R) : R := IZR (Int_part r).

Definition random (max u : R) : R := u * max.

(** ** The agent *)

Record Block : Type := mkBlock {
  pos : Vector;
  rgb : Vector;
  rgbVel : Vector;
  rgbAcc : Vector;
  size : R;
  radius : R;
  maxspeed : R;
  maxforce : R
}.

Definition set_rgb (this : Block) (v : Vector) : Block :=
  mkBlock (pos this) v (rgbVel this) (rgbAcc this)
          (size this) (radius this) (maxspeed this) (maxforce this).

Definition set_rgbVel (this : Block) (v : Vector) : Block :=
  mkBlock (pos this) (rgb this) v (rgbAcc this)
          (size this) (radius this) (maxspeed this) (maxforce this).

Definition set_rgbAcc (this : Block) (v : Vector) : Block :=
  mkBlock (pos this) (rgb this) (rgbVel this) v
          (size this) (radius this) (maxspeed this) (maxforce this).

(** The three draws of one colour. *)
Record Draws : Type := mkDraws { draw_r : R; draw_g : R; draw_b : R }.

(** [function Block(x, y, s)]: the constructor, with the three draws it
    takes from the random source. *)
Definition newBlock (px py s : R) (d : Draws) : Block :=
  mkBlock (createVector px py 0)
          (createVector (floor (random 256 (draw_r d)))
                        (floor (random 256 (draw_g d)))
                        (floor (random 256 (draw_b d))))
          (createVector 0 0 0)
          (createVector 0 0 0)
          s 15 1.5 0.01.

Definition randomizeColor (d : Draws) (this : Block) : Block :=
  set_rgb this (P5.set (rgb this)
                       (floor (random 256 (draw_r d)))
                       (floor (random 256 (draw_g d)))
                       (floor (random 256 (draw_b d)))).

Definition setToColor (r g b : R) (this : Block) : Block :=
  set_rgb this (P5.set (rgb this) r g b).

Definition applyForce (force : Vector) (this : Block) : Block :=
  set_rgbAcc this (P5.add (rgbAcc this) force).

Definition seek (this : Block) (target : Vector) : Vector :=
  let desired := P5.sub target (rgb this) in
  let desired := P5.normalize desired in
  let desired := P5.mult desired (maxspeed this) in
  let steer := P5.sub desired (rgbVel this) in
  P5.limit steer (maxforce this).

(** The loop shared by the three rules: [for (i = 0; i < blocks.length; i++)
    if (blocks[i] !== null) { sum.add(term(blocks[i])); count++; }].
    A slot of the array holds a block or [null]. *)
Fixpoint scan (term : Block -> Vector) (blocks : list (option Block))
         (sum : Vector) (count : nat) : Vector * nat :=
  match blocks with
  | [] => (sum, count)
  | None :: rest => scan term rest sum count
  | Some other :: rest => scan term rest (P5.add sum (term other)) (S count)
  end.

(** [separate] starts from [steer = createVector(0, 0)], whose third
    component p5 sets to 0. *)
Definition separate (this : Block) (blocks : list (option Block)) : Vector :=
  let steer := createVector 0 0 0 in
  let '(sum, count) :=
    scan (fun other => P5.normalize (P5.sub (rgb this) (rgb other)))
         blocks (createVector 0 0 0) 0 in
  if (0 <? count)%nat then
    let sum := P5.div sum (INR count) in
    let sum := P5.normalize sum in
    let sum := P5.mult sum (maxspeed this) in
    let steer := P5.sub sum (rgbVel this) in
    P5.limit steer (maxforce this)
  else steer.

Definition align (this : Block) (blocks : list (option Block)) : Vector :=
  let '(sum, count) := scan rgbVel blocks (createVector 0 0 0) 0 in
  if (0 <? count)%nat then
    let sum := P5.div sum (INR count) in
    let sum := P5.normalize sum in
    let sum := P5.mult sum (maxspeed this) in
    let steer := P5.sub sum (rgbVel this) in
    P5.limit steer (maxforce this)
  else createVector 0 0 0.

Definition cohesion (this : Block) (blocks : list (option Block)) : Vector :=
  let '(sum, count) := scan rgb blocks (createVector 0 0 0) 0 in
  if (0 <? count)%nat then
    let sum := P5.div sum (INR count) in
    seek this sum
  else createVector 0 0 0.

(** The three sliders read by [flock] ([sepSlider.value()] and the like). *)
Record Sliders : Type := mkSliders {
  sepSlider : R;
  aliSlider : R;
  cohSlider : R
}.

Definition flock (sl : Sliders) (blocks : list (option Block))
           (this : Block) : Block :=
  let sep := separate this blocks in
  let ali := align this blocks in
  let coh := cohesion this blocks in
  let sep := P5.mult sep (sepSlider sl) in
  let ali := P5.mult ali (aliSlider sl) in
  let coh := P5.mult coh (cohSlider sl) in
  let this := applyForce sep this in
  let this := applyForce ali this in
  applyForce coh this.

Definition edges (this : Block) : Block :=
  let this :=
    if Rgt_dec (P5.x (rgb this)) 255 then
      let this := set_rgb this (P5.set_x (rgb this) 255) in
      set_rgbVel this (P5.set_x (rgbVel this) (P5.x (rgbVel this) * -1))
    else if Rlt_dec (P5.x (rgb this)) 0 then
      let this := set_rgb this (P5.set_x (rgb this) 0) in
      set_rgbVel this (P5.set_x (rgbVel this) (P5.x (rgbVel this) * -1))
    else this in
  let this :=
    if Rgt_dec (P5.y (rgb this)) 255 then
      let this := set_rgb this (P5.set_y (rgb this) 255) in
      set_rgbVel this (P5.set_y (rgbVel this) (P5.y (rgbVel this) * -1))
    else if Rlt_dec (P5.y (rgb this)) 0 then
      let this := set_rgb this (P5.set_y (rgb this) 0) in
      set_rgbVel this (P5.set_y (rgbVel this) (P5.y (rgbVel this) * -1))
    else this in
  if Rgt_dec (P5.z (rgb this)) 255 then
    let this := set_rgb this (P5.set_z (rgb this) 255) in
    set_rgbVel this (P5.set_z (rgbVel this) (P5.z (rgbVel this) * -1))
  else if Rlt_dec (P5.z (rgb this)) 0 then
    let this := set_rgb this (P5.set_z (rgb this) 0) in
    set_rgbVel this (P5.set_z (rgbVel this) (P5.z (rgbVel this) * -1))
  else this.

Definition update (this : Block) : Block :=
  let this := set_rgbVel this (P5.add (rgbVel this) (rgbAcc this)) in
  let this := set_rgbVel this (P5.limit (rgbVel this) (maxspeed this)) in
  let this := set_rgb this (P5.add (rgb this) (rgbVel this)) in
  let this := edges this in
  set_rgbAcc this (P5.mult (rgbAcc this) 0).

(** What [display] sends to the renderer: [noStroke()], [fill(r, g, b)] and
    [rect(x, y, w, h)] are calls of the p5 drawing interface, recorded here
    in the order they are made. *)
Inductive DrawCall : Type :=
| noStroke : DrawCall
| fill : R -> R -> R -> DrawCall
| rect : R -> R -> R -> R -> DrawCall.

Definition display (this : Block) : list DrawCall :=
  [ noStroke;
    fill (P5.x (rgb this)) (P5.y (rgb this)) (P5.z (rgb this));
    rect (P5.x (pos this)) (P5.y (pos this)) (size this) (size this) ].

(** ** Frames *)

(** One frame of one agent: the forces of [flock] against the peer array,
    then [update]. *)
Definition frame (sl : Sliders) (blocks : list (option Block))
           (this : Block) : Block :=
  update (flock sl blocks this).

(** A run of frames: each frame comes with the slider values and the peer
    array of that frame. *)
Fixpoint run (frames : list (Sliders * list (option Block)))
         (this : Block) : Block :=
  match frames with
  | [] => this
  | (sl, blocks) :: rest => run rest (frame sl blocks this)
  end.

(** The agent alone: the peer array holds the agent itself and nothing
    else, frame after frame. *)
Fixpoint alone (sls : list Sliders) (this : Block) : Block :=
  match sls with
  | [] => this
  | sl :: rest => alone rest (frame sl [Some this] this)
  end.

(** [blocks[i] = b] on the array of agents. *)
Fixpoint assign (i : nat) (b : Block) (store : list Block) : list Block :=
  match store, i with
  | [], _ => []
  | _ :: rest, O => b :: rest
  | a :: rest, S k => a :: assign k b rest
  end.

(** Modelled from the spec: the frame loop [Flock.step()] lives in the
    sketch file, which is not under src/.  The spec gives it two phases:
    first every agent calls [flock(allAgents)], then every agent calls
    [update()].  The agents are objects shared between the collection and
    the peer array, so the first phase runs over a store: the agent at index
    [i] reads the store as it is when its turn comes and writes its own
    accumulator back. *)
Definition flockAt (sl : Sliders) (store : list Block) (i : nat) : list Block :=
  match nth_error store i with
  | Some b => assign i (flock sl (map Some store) b) store
  | None => store
  end.

Definition flockPass (sl : Sliders) (order : list nat) (store : list Block)
  : list Block :=
  fold_left (flockAt sl) order store.

Definition updatePass (store : list Block) : list Block := map update store.

(** Modelled from the spec: the two phases of [Flock.step()], which is not
    under src/.  [stepIn] visits the agents in the given order of indices in
    the first phase; [step] visits them from first to last. *)
Definition stepIn (sl : Sliders) (order : list nat) (store : list Block)
  : list Block :=
  updatePass (flockPass sl order store).

Definition step (sl : Sliders) (store : list Block) : list Block :=
  stepIn sl (seq 0 (length store)) store.

(** The first phase seen from the start-of-frame snapshot [snapshot]: the
    agent after its own [flock] against the snapshot, and the agent at index
    [k] once the indices of [done] have had their turn. *)
Definition flocked (sl : Sliders) (snapshot : list Block) (b : Block) : Block :=
  flock sl (map Some snapshot) b.

Definition partway (sl : Sliders) (snapshot : list Block) (done : list nat)
           (k : nat) (b : Block) : Block :=
  if in_dec Nat.eq_dec k done then flocked sl snapshot b else b.

(** The store [s] is the snapshot after the agents of [done] had their
    turn in the first phase. *)
Definition storeAfter (sl : Sliders) (snapshot : list Block)
           (done : list nat) (s : list Block) : Prop :=
  forall k, nth_error s k =
            option_map (partway sl snapshot done k) (nth_error snapshot k).

(** What the rules read of the peers: colours and velocities. *)
Definition sameView (s l : list Block) : Prop :=
  map rgb s = map rgb l /\ map rgbVel s = map rgbVel l.

(** ** The rules as aggregates *)

(** The non-null slots of a peer array, in order. *)
Fixpoint live (blocks : list (option Block)) : list Block :=
  match blocks with
  | [] => []
  | None :: rest => live rest
  | Some b :: rest => b :: live rest
  end.

(** The peer array without the slot at index [i]. *)
Definition without (i : nat) (blocks : list (option Block))
  : list (option Block) :=
  firstn i blocks ++ skipn (S i) blocks.

Definition vsum (vs : list Vector) : Vector := fold_right P5.add P5.zero vs.

(** Steering towards a direction: normalize, scale to [maxspeed], subtract
    the velocity, limit to [maxforce]. *)
Definition steerAlong (this : Block) (dir : Vector) : Vector :=
  P5.limit (P5.sub (P5.mult (P5.normalize dir) (maxspeed this)) (rgbVel this))
           (maxforce this).

(** The rules written as the spec words them, over an explicit list of
    peers: the average of one term per peer, steered along. *)
Definition separateOver (this : Block) (peers : list Block) : Vector :=
  match peers with
  | [] => P5.zero
  | _ =>
    steerAlong this
      (P5.div (vsum (map (fun other => P5.normalize (P5.sub (rgb this) (rgb other)))
                         peers))
              (INR (length peers)))
  end.

Definition alignOver (this : Block) (peers : list Block) : Vector :=
  match peers with
  | [] => P5.zero
  | _ => steerAlong this (P5.div (vsum (map rgbVel peers)) (INR (length peers)))
  end.

Definition cohesionOver (this : Block) (peers : list Block) : Vector :=
  match peers with
  | [] => P5.zero
  | _ => seek this (P5.div (vsum (map rgb peers)) (INR (length peers)))
  end.

(** ** The same agent over binary64 *)

Module F64.

Import PrimFloat.
#[local] Set Warnings "-inexact-float".
Local Open Scope float_scope.

(** Modelled from the spec: [p5.Vector] as in [P5], with doubles:
    [len !== 0] and [n === 0] are the comparisons of doubles, [mag] is
    [Math.sqrt] of [magSq]. *)
Record Vector : Type := createVector { x : float; y : float; z : float }.

Definition add (v w : Vector) : Vector :=
  createVector (x v + x w) (y v + y w) (z v + z w).
Definition sub (v w : Vector) : Vector :=
  createVector (x v - x w) (y v - y w) (z v - z w).
Definition mult (v : Vector) (n : float) : Vector :=
  createVector (x v * n) (y v * n) (z v * n).
Definition div (v : Vector) (n : float) : Vector :=
  if n =? 0 then v else createVector (x v / n) (y v / n) (z v / n).
Definition magSq (v : Vector) : float := x v * x v + y v * y v + z v * z v.
Definition mag (v : Vector) : float := sqrt (magSq v).
Definition normalize (v : Vector) : Vector :=
  let len := mag v in
  if len =? 0 then v else mult v (1 / len).
Definition limit (v : Vector) (max : float) : Vector :=
  let mSq := magSq v in
  if max * max <? mSq then mult (div v (sqrt mSq)) max else v.

Record Block : Type := mkBlock {
  pos : Vector; rgb : Vector; rgbVel : Vector; rgbAcc : Vector;
  size : float; radius : float; maxspeed : float; maxforce : float }.

(** The loop of the three rules; [count] is a JavaScript number, [count++]
    adds 1 to it. *)
Fixpoint scan (term : Block -> Vector) (blocks : list (option Block))
         (sum : Vector) (count : float) : Vector * float :=
  match blocks with
  | [] => (sum, count)
  | None :: rest => scan term rest sum count
  | Some other :: rest => scan term rest (add sum (term other)) (count + 1)
  end.

Definition separate (this : Block) (blocks : list (option Block)) : Vector :=
  let steer := createVector 0 0 0 in
  let '(sum, count) :=
    scan (fun other => normalize (sub (rgb this) (rgb other)))
         blocks (createVector 0 0 0) 0 in
  if 0 <? count then
    let sum := div sum count in
    let sum := normalize sum in
    let sum := mult sum (maxspeed this) in
    let steer := sub sum (rgbVel this) in
    limit steer (maxforce this)
  else steer.

Definition set_x (v : Vector) (a : float) : Vector := createVector a (y v) (z v).
Definition set_y (v : Vector) (a : float) : Vector := createVector (x v) a (z v).
Definition set_z (v : Vector) (a : float) : Vector := createVector (x v) (y v) a.

Definition set_rgb (this : Block) (v : Vector) : Block :=
  mkBlock (pos this) v (rgbVel this) (rgbAcc this)
          (size this) (radius this) (maxspeed this) (maxforce this).
Definition set_rgbVel (this : Block) (v : Vector) : Block :=
  mkBlock (pos this) (rgb this) v (rgbAcc this)
          (size this) (radius this) (maxspeed this) (maxforce this).
Definition set_rgbAcc (this : Block) (v : Vector) : Block :=
  mkBlock (pos this) (rgb this) (rgbVel this) v
          (size this) (radius this) (maxspeed this) (maxforce this).

Definition applyForce (force : Vector) (this : Block) : Block :=
  set_rgbAcc this (add (rgbAcc this) force).

Definition seek (this : Block) (target : Vector) : Vector :=
  let desired := sub target (rgb this) in
  let desired := normalize desired in
  let desired := mult desired (maxspeed this) in
  let steer := sub desired (rgbVel this) in
  limit steer (maxforce this).

Definition align (this : Block) (blocks : list (option Block)) : Vector :=
  let '(sum, count) := scan rgbVel blocks (createVector 0 0 0) 0 in
  if 0 <? count then
    let sum := div sum count in
    let sum := normalize sum in
    let sum := mult sum (maxspeed this) in
    let steer := sub sum (rgbVel this) in
    limit steer (maxforce this)
  else createVector 0 0 0.

Definition cohesion (this : Block) (blocks : list (option Block)) : Vector :=
  let '(sum, count) := scan rgb blocks (createVector 0 0 0) 0 in
  if 0 <? count then
    let sum := div sum count in
    seek this sum
  else createVector 0 0 0.

Record Sliders : Type := mkSliders {
  sepSlider : float; aliSlider : float; cohSlider : float }.

Definition flock (sl : Sliders) (blocks : list (option Block))
           (this : Block) : Block :=
  let sep := separate this blocks in
  let ali := align this blocks in
  let coh := cohesion this blocks in
  let sep := mult sep (sepSlider sl) in
  let ali := mult ali (aliSlider sl) in
  let coh := mult coh (cohSlider sl) in
  let this := applyForce sep this in
  let this := applyForce ali this in
  applyForce coh this.

Definition edges (this : Block) : Block :=
  let this :=
    if 255 <? x (rgb this) then
      let this := set_rgb this (set_x (rgb this) 255) in
      set_rgbVel this (set_x (rgbVel this) (x (rgbVel this) * -1))
    else if x (rgb this) <? 0 then
      let this := set_rgb this (set_x (rgb this) 0) in
      set_rgbVel this (set_x (rgbVel this) (x (rgbVel this) * -1))
    else this in
  let this :=
    if 255 <? y (rgb this) then
      let this := set_rgb this (set_y (rgb this) 255) in
      set_rgbVel this (set_y (rgbVel this) (y (rgbVel this) * -1))
    else if y (rgb this) <? 0 then
      let this := set_rgb this (set_y (rgb this) 0) in
      set_rgbVel this (set_y (rgbVel this) (y (rgbVel this) * -1))
    else this in
  if 255 <? z (rgb this) then
    let this := set_rgb this (set_z (rgb this) 255) in
    set_rgbVel this (set_z (rgbVel this) (z (rgbVel this) * -1))
  else if z (rgb this) <? 0 then
    let this := set_rgb this (set_z (rgb this) 0) in
    set_rgbVel this (set_z (rgbVel this) (z (rgbVel this) * -1))
  else this.

Definition update (this : Block) : Block :=
  let this := set_rgbVel this (add (rgbVel this) (rgbAcc this)) in
  let this := set_rgbVel this (limit (rgbVel this) (maxspeed this)) in
  let this := set_rgb this (add (rgb this) (rgbVel this)) in
  let this := edges this in
  set_rgbAcc this (mult (rgbAcc this) 0).

(** Modelled from the spec: the two phases of [Flock.step()], which is not
    under src/, over a shared store.  [assign], [flockAt], [flockPass],
    [updatePass], [stepIn] and [step] are those of the exact model, with
    doubles. *)
Fixpoint assign (i : nat) (b : Block) (store : list Block) : list Block :=
  match store, i with
  | [], _ => []
  | _ :: rest, O => b :: rest
  | a :: rest, S k => a :: assign k b rest
  end.

Definition flockAt (sl : Sliders) (store : list Block) (i : nat) : list Block :=
  match nth_error store i with
  | Some b => assign i (flock sl (map Some store) b) store
  | None => store
  end.

Definition flockPass (sl : Sliders) (order : list nat) (store : list Block)
  : list Block :=
  fold_left (flockAt sl) order store.

Definition updatePass (store : list Block) : list Block := map update store.

Definition stepIn (sl : Sliders) (order : list nat) (store : list Block)
  : list Block :=
  updatePass (flockPass sl order store).

Definition step (sl : Sliders) (store : list Block) : list Block :=
  stepIn sl (seq 0 (length store)) store.


Definition flocked (sl : Sliders) (snapshot : list Block) (b : Block) : Block :=
  flock sl (map Some snapshot) b.

Definition partway (sl : Sliders) (snapshot : list Block) (done : list nat)
           (k : nat) (b : Block) : Block :=
  if in_dec Nat.eq_dec k done then flocked sl snapshot b else b.

Definition storeAfter (sl : Sliders) (snapshot : list Block)
           (done : list nat) (s : list Block) : Prop :=
  forall k, nth_error s k =
            option_map (partway sl snapshot done k) (nth_error snapshot k).

Definition sameView (s l : list Block) : Prop :=
  map rgb s = map rgb l /\ map rgbVel s = map rgbVel l.

(** Five agents at rest, as the constructor could have made them: integer
    colours, limits 1.5 and 0.01. *)
Definition atRest (r g b : float) : Block :=
  mkBlock (createVector 0 0 0) (createVector r g b)
          (createVector 0 0 0) (createVector 0 0 0) 10 15 1.5 0.01.

Definition grey : Block := atRest 100 100 100.
Definition light : Block := atRest 104 104 104.
Definition dark : Block := atRest 96 96 96.
Definition lightish : Block := atRest 104 104 102.
Definition darkish : Block := atRest 96 96 98.

Definition defaultSliders : Sliders := mkSliders 1.2 1 2.

(** The velocity [grey] leaves a step with when the array is
    [grey; light; lightish; dark; darkish]. *)
Definition pushed : Vector := createVector 0 0 (-0.012).

(** Whether an agent that may be missing has the given velocity, compared
    component by component as doubles. *)
Definition hasVelocity (v : Vector) (o : option Block) : bool :=
  match o with
  | Some b =>
    ((x (rgbVel b) =? x v) && (y (rgbVel b) =? y v) && (z (rgbVel b) =? z v))%bool
  | None => false
  end.

End F64.

(** ** Sample agents *)

(** The defaults of the sketch: the sliders start at 1.2, 1 and 2. *)
Definition defaultSliders : Sliders := mkSliders 1.2 1 2.

(** An agent that has just stepped over the upper bound on the red channel
    and under the lower bound on the green one. *)
Definition approaching256 : Block :=
  mkBlock (createVector 0 0 0) (createVector 256 (-1) 100)
          (createVector 1 2 3) P5.zero 10 15 1.5 0.01.

(** Three draws of the random source. *)
Definition sampleDraws : Draws := mkDraws 0.5 0 0.999.

(** Two agents that move along the red axis in opposite directions. *)
Definition eastbound : Block :=
  mkBlock (createVector 0 0 0) (createVector 100 100 100)
          (createVector 1 0 0) P5.zero 10 15 1.5 0.01.

Definition westbound : Block :=
  mkBlock (createVector 10 0 0) (createVector 50 60 70)
          (createVector (-0.5) 0 0) P5.zero 10 15 1.5 0.01.

(** An agent in the middle of a run, drifting slowly along the red axis. *)
Definition drifting : Block :=
  mkBlock (createVector 0 0 0) (createVector 100 100 100)
          (createVector 0.005 0 0) P5.zero 10 15 1.5 0.01.

(** ** Predicates of the claims *)

Definition inRange (c : R) : Prop := 0 <= c <= 255.

Definition colorInRange (v : Vector) : Prop :=
  inRange (P5.x v) /\ inRange (P5.y v) /\ inRange (P5.z v).

(** The reflection policy on one channel: the colour component [c] and the
    velocity component [v] of that channel before the boundary pass, [c']
    and [v'] after it. *)
Definition reflected (c v c' v' : R) : Prop :=
  (c > 255 -> c' = 255 /\ v' = - v) /\
  (c < 0 -> c' = 0 /\ v' = - v) /\
  (0 <= c <= 255 -> c' = c /\ v' = v).

(** A bounce that points back into the cube: a channel that the velocity
    component [v] carries from [c] past a bound ends on that bound, [c'],
    with a velocity component [v'] that points inwards. *)
Definition bouncesInward (c v c' v' : R) : Prop :=
  (c + v > 255 -> c' = 255 /\ v' < 0) /\
  (c + v < 0 -> c' = 0 /\ v' > 0).

(** An integer of [0, 255]. *)
Definition byteValue (c : R) : Prop :=
  exists k : Z, c = IZR k /\ (0 <= k <= 255)%Z.

Definition byteColor (v : Vector) : Prop :=
  byteValue (P5.x v) /\ byteValue (P5.y v) /\ byteValue (P5.z v).

Definition unitDraws (d : Draws) : Prop :=
  (0 <= draw_r d < 1) /\ (0 <= draw_g d < 1) /\ (0 <= draw_b d < 1).

(** ** Facts about vectors *)

Section VectorFacts.

Lemma vector_eq (v w : Vector) :
  P5.x v = P5.x w -> P5.y v = P5.y w -> P5.z v = P5.z w -> v = w.
Proof. destruct v, w; simpl; intros -> -> ->; reflexivity. Qed.

Lemma add_comm (v w : Vector) : P5.add v w = P5.add w v.
Proof. apply vector_eq; simpl; lra. Qed.

Lemma add_assoc (u v w : Vector) :
  P5.add (P5.add u v) w = P5.add u (P5.add v w).
Proof. apply vector_eq; simpl; lra. Qed.

Lemma add_zero_r (v : Vector) : P5.add v P5.zero = v.
Proof. apply vector_eq; simpl; lra. Qed.

Lemma add_zero_l (v : Vector) : P5.add P5.zero v = v.
Proof. apply vector_eq; simpl; lra. Qed.

Lemma mult_zero_l (n : R) : P5.mult P5.zero n = P5.zero.
Proof. apply vector_eq; simpl; lra. Qed.

Lemma mult_0 (v : Vector) : P5.mult v 0 = P5.zero.
Proof. apply vector_eq; simpl; lra. Qed.

Lemma sub_self (v : Vector) : P5.sub v v = P5.zero.
Proof. apply vector_eq; simpl; lra. Qed.

Lemma magSq_nonneg (v : Vector) : 0 <= P5.magSq v.
Proof. unfold P5.magSq; nra. Qed.

Lemma magSq_mult (v : Vector) (n : R) :
  P5.magSq (P5.mult v n) = n * n * P5.magSq v.
Proof. unfold P5.magSq; simpl; ring. Qed.

Lemma magSq_zero : P5.magSq P5.zero = 0.
Proof. unfold P5.magSq; simpl; ring. Qed.

Lemma magSq_eq_0 (v : Vector) : P5.magSq v = 0 -> v = P5.zero.
Proof.
  unfold P5.magSq; intros H.
  apply vector_eq; simpl; nra.
Qed.

Lemma mag_nonneg (v : Vector) : 0 <= P5.mag v.
Proof. apply sqrt_pos. Qed.

Lemma mag_zero : P5.mag P5.zero = 0.
Proof. unfold P5.mag; rewrite magSq_zero; apply sqrt_0. Qed.

Lemma mag_eq_0 (v : Vector) : P5.mag v = 0 -> v = P5.zero.
Proof.
  intros H; apply magSq_eq_0, sqrt_eq_0; [apply magSq_nonneg | exact H].
Qed.

Lemma mag_square (v : Vector) : P5.mag v * P5.mag v = P5.magSq v.
Proof. apply sqrt_def, magSq_nonneg. Qed.

Lemma mag_mult (v : Vector) (n : R) :
  0 <= n -> P5.mag (P5.mult v n) = n * P5.mag v.
Proof.
  intros Hn; unfold P5.mag; rewrite magSq_mult.
  rewrite sqrt_mult; [| nra | apply magSq_nonneg].
  rewrite sqrt_square by exact Hn; reflexivity.
Qed.

Lemma normalize_zero : P5.normalize P5.zero = P5.zero.
Proof.
  unfold P5.normalize; rewrite mag_zero.
  destruct (Req_dec_T 0 0) as [_ | Hne]; [reflexivity | contradiction].
Qed.

(** The vector that [limit] returns is never longer than [max]. *)
Lemma mag_limit (v : Vector) (max : R) :
  0 <= max -> P5.mag (P5.limit v max) <= max.
Proof.
  intros Hmax; unfold P5.limit.
  destruct (Rgt_dec (P5.magSq v) (max * max)) as [Hgt | Hle].
  - assert (Hpos : 0 < P5.magSq v) by nra.
    assert (Hs : 0 < sqrt (P5.magSq v)) by (apply sqrt_lt_R0; exact Hpos).
    unfold P5.div.
    destruct (Req_dec_T (sqrt (P5.magSq v)) 0) as [Hz | _]; [lra |].
    rewrite mag_mult by exact Hmax.
    assert (Hunit : P5.mag (createVector (P5.x v / sqrt (P5.magSq v))
                                         (P5.y v / sqrt (P5.magSq v))
                                         (P5.z v / sqrt (P5.magSq v))) = 1).
    { unfold P5.mag. apply sqrt_lem_1; [apply magSq_nonneg | lra |].
      pose proof (sqrt_def (P5.magSq v) (magSq_nonneg v)) as Hd.
      set (s := sqrt (P5.magSq v)) in *.
      unfold P5.magSq in *; simpl.
      transitivity ((P5.x v * P5.x v + P5.y v * P5.y v + P5.z v * P5.z v)
                    / (s * s)); [| field; lra].
      rewrite <- Hd; field; lra. }
    rewrite Hunit; lra.
  - unfold P5.mag.
    rewrite <- (sqrt_square max) by exact Hmax.
    apply sqrt_le_1; [apply magSq_nonneg | nra | lra].
Qed.

(** A vector that is short enough goes through [limit] unchanged. *)
Lemma limit_short (v : Vector) (max : R) :
  P5.magSq v <= max * max -> P5.limit v max = v.
Proof.
  intros H; unfold P5.limit.
  destruct (Rgt_dec (P5.magSq v) (max * max)); [lra | reflexivity].
Qed.

Lemma limit_zero (max : R) : P5.limit P5.zero max = P5.zero.
Proof. apply limit_short; rewrite magSq_zero; nra. Qed.

End VectorFacts.

Create Rewrite HintDb vec.
#[local] Hint Rewrite add_zero_r add_zero_l mult_zero_l mult_0 sub_self
  normalize_zero limit_zero magSq_zero mag_zero : vec.

(** ** The boundary pass *)

Section Edges.

Ltac edges_cases :=
  unfold edges;
  repeat match goal with
         | |- context [Rgt_dec ?a ?b] => destruct (Rgt_dec a b)
         | |- context [Rlt_dec ?a ?b] => destruct (Rlt_dec a b)
         end;
  simpl in *.

Lemma edges_x (b : Block) :
  reflected (P5.x (rgb b)) (P5.x (rgbVel b))
            (P5.x (rgb (edges b))) (P5.x (rgbVel (edges b))).
Proof. unfold reflected; edges_cases; repeat split; intros; lra. Qed.

Lemma edges_y (b : Block) :
  reflected (P5.y (rgb b)) (P5.y (rgbVel b))
            (P5.y (rgb (edges b))) (P5.y (rgbVel (edges b))).
Proof. unfold reflected; edges_cases; repeat split; intros; lra. Qed.

Lemma edges_z (b : Block) :
  reflected (P5.z (rgb b)) (P5.z (rgbVel b))
            (P5.z (rgb (edges b))) (P5.z (rgbVel (edges b))).
Proof. unfold reflected; edges_cases; repeat split; intros; lra. Qed.

Lemma reflected_functional (c v c1 v1 c2 v2 : R) :
  reflected c v c1 v1 -> reflected c v c2 v2 -> c1 = c2 /\ v1 = v2.
Proof.
  unfold reflected; intros (Hhi & Hlo & Hin) (Hhi' & Hlo' & Hin').
  destruct (Rgt_dec c 255) as [H | H];
    [destruct (Hhi H), (Hhi' H); split; lra |].
  destruct (Rlt_dec c 0) as [H0 | H0];
    [destruct (Hlo H0), (Hlo' H0); split; lra |].
  destruct Hin, Hin'; try split; lra.
Qed.

Lemma reflected_inRange (c v c' v' : R) : reflected c v c' v' -> inRange c'.
Proof.
  unfold reflected, inRange; intros (Hhi & Hlo & Hin).
  destruct (Rgt_dec c 255) as [H | H]; [destruct (Hhi H); lra |].
  destruct (Rlt_dec c 0) as [H0 | H0]; [destruct (Hlo H0); lra |].
  destruct Hin; lra.
Qed.

Lemma reflected_square (c v c' v' : R) : reflected c v c' v' -> v' * v' = v * v.
Proof.
  unfold reflected; intros (Hhi & Hlo & Hin).
  destruct (Rgt_dec c 255) as [H | H]; [destruct (Hhi H); nra |].
  destruct (Rlt_dec c 0) as [H0 | H0]; [destruct (Hlo H0); nra |].
  destruct Hin; nra.
Qed.

Lemma edges_colorInRange (b : Block) : colorInRange (rgb (edges b)).
Proof.
  repeat split;
    [ apply (reflected_inRange _ _ _ _ (edges_x b))
    | apply (reflected_inRange _ _ _ _ (edges_x b))
    | apply (reflected_inRange _ _ _ _ (edges_y b))
    | apply (reflected_inRange _ _ _ _ (edges_y b))
    | apply (reflected_inRange _ _ _ _ (edges_z b))
    | apply (reflected_inRange _ _ _ _ (edges_z b)) ].
Qed.

Lemma edges_magSq (b : Block) :
  P5.magSq (rgbVel (edges b)) = P5.magSq (rgbVel b).
Proof.
  unfold P5.magSq.
  rewrite (reflected_square _ _ _ _ (edges_x b)).
  rewrite (reflected_square _ _ _ _ (edges_y b)).
  rewrite (reflected_square _ _ _ _ (edges_z b)).
  reflexivity.
Qed.

Lemma edges_fields (b : Block) :
  rgbAcc (edges b) = rgbAcc b /\ maxspeed (edges b) = maxspeed b /\
  maxforce (edges b) = maxforce b /\ pos (edges b) = pos b /\
  size (edges b) = size b /\ radius (edges b) = radius b.
Proof. edges_cases; repeat split; reflexivity. Qed.

Lemma edges_inside (b : Block) : colorInRange (rgb b) -> edges b = b.
Proof.
  unfold colorInRange, inRange; intros (Hx & Hy & Hz).
  edges_cases; try lra. destruct b; reflexivity.
Qed.

End Edges.

(** ** Integration *)

Section Update.

Lemma update_unfold (b : Block) :
  update b =
  set_rgbAcc
    (edges (set_rgb
              (set_rgbVel b (P5.limit (P5.add (rgbVel b) (rgbAcc b)) (maxspeed b)))
              (P5.add (rgb b)
                      (P5.limit (P5.add (rgbVel b) (rgbAcc b)) (maxspeed b)))))
    P5.zero.
Proof.
  unfold update; simpl.
  rewrite mult_0; reflexivity.
Qed.

Lemma update_colorInRange (b : Block) : colorInRange (rgb (update b)).
Proof. rewrite update_unfold; simpl; apply edges_colorInRange. Qed.

Lemma update_rgbAcc (b : Block) : rgbAcc (update b) = P5.zero.
Proof. rewrite update_unfold; reflexivity. Qed.

Lemma update_maxspeed (b : Block) : maxspeed (update b) = maxspeed b.
Proof.
  rewrite update_unfold; simpl.
  match goal with |- maxspeed (edges ?c) = _ =>
    destruct (edges_fields c) as (_ & -> & _) end.
  reflexivity.
Qed.

Lemma update_maxforce (b : Block) : maxforce (update b) = maxforce b.
Proof.
  rewrite update_unfold; simpl.
  match goal with |- maxforce (edges ?c) = _ =>
    destruct (edges_fields c) as (_ & _ & -> & _) end.
  reflexivity.
Qed.

Lemma update_magSq (b : Block) :
  P5.magSq (rgbVel (update b)) =
  P5.magSq (P5.limit (P5.add (rgbVel b) (rgbAcc b)) (maxspeed b)).
Proof. rewrite update_unfold; simpl; rewrite edges_magSq; reflexivity. Qed.

Lemma update_speed (b : Block) :
  0 <= maxspeed b -> P5.mag (rgbVel (update b)) <= maxspeed b.
Proof.
  intros Hms.
  unfold P5.mag at 1; rewrite update_magSq.
  apply mag_limit, Hms.
Qed.

Lemma flock_fields (sl : Sliders) (blocks : list (option Block)) (b : Block) :
  rgb (flock sl blocks b) = rgb b /\ rgbVel (flock sl blocks b) = rgbVel b /\
  maxspeed (flock sl blocks b) = maxspeed b /\
  maxforce (flock sl blocks b) = maxforce b.
Proof. repeat split; reflexivity. Qed.

Lemma frame_colorInRange (sl : Sliders) (blocks : list (option Block)) (b : Block) :
  colorInRange (rgb (frame sl blocks b)).
Proof. apply update_colorInRange. Qed.

End Update.

(** C1. Boundary invariant: an agent whose colour channels start in
    [0, 255] has every colour channel in [0, 255] after the boundary pass of
    each frame, for any number of frames and whatever the peers and the
    slider values of each frame are. *)
Theorem color_stays_in_range
        (frames : list (Sliders * list (option Block))) (b : Block) :
  colorInRange (rgb b) -> colorInRange (rgb (run frames b)).
Proof.
  revert b; induction frames as [| [sl blocks] rest IH]; intros b Hb.
  - exact Hb.
  - simpl; apply IH, frame_colorInRange.
Qed.

Lemma color_stays_in_range_witness :
  colorInRange
    (rgb (run [(mkSliders 1.2 1 2, [None]); (mkSliders 1.2 1 2, [])]
              (mkBlock (createVector 0 0 0) (createVector 255 0 17)
                       (createVector 1 (-1) 0) P5.zero 10 15 1.5 0.01))).
Proof.
  apply color_stays_in_range.
  unfold colorInRange, inRange; simpl; lra.
Defined.

(** C7. [edges] treats the three colour channels one by one: on each
    channel a value above 255 becomes 255 and the velocity component of that
    channel is negated, a value below 0 becomes 0 and the velocity component
    is negated, and a value inside [0, 255] is left as it is together with
    its velocity component.  What happens on a channel depends on that
    channel alone. *)
Theorem edges_channel_by_channel (b b' : Block) :
  (reflected (P5.x (rgb b)) (P5.x (rgbVel b))
             (P5.x (rgb (edges b))) (P5.x (rgbVel (edges b))) /\
   reflected (P5.y (rgb b)) (P5.y (rgbVel b))
             (P5.y (rgb (edges b))) (P5.y (rgbVel (edges b))) /\
   reflected (P5.z (rgb b)) (P5.z (rgbVel b))
             (P5.z (rgb (edges b))) (P5.z (rgbVel (edges b)))) /\
  (P5.x (rgb b) = P5.x (rgb b') -> P5.x (rgbVel b) = P5.x (rgbVel b') ->
   P5.x (rgb (edges b)) = P5.x (rgb (edges b')) /\
   P5.x (rgbVel (edges b)) = P5.x (rgbVel (edges b'))) /\
  (P5.y (rgb b) = P5.y (rgb b') -> P5.y (rgbVel b) = P5.y (rgbVel b') ->
   P5.y (rgb (edges b)) = P5.y (rgb (edges b')) /\
   P5.y (rgbVel (edges b)) = P5.y (rgbVel (edges b'))) /\
  (P5.z (rgb b) = P5.z (rgb b') -> P5.z (rgbVel b) = P5.z (rgbVel b') ->
   P5.z (rgb (edges b)) = P5.z (rgb (edges b')) /\
   P5.z (rgbVel (edges b)) = P5.z (rgbVel (edges b'))).
Proof.
  split; [split; [apply edges_x | split; [apply edges_y | apply edges_z]] |].
  split; [| split]; intros Hc Hv.
  - apply (reflected_functional _ _ _ _ _ _ (edges_x b));
      rewrite Hc, Hv; apply edges_x.
  - apply (reflected_functional _ _ _ _ _ _ (edges_y b));
      rewrite Hc, Hv; apply edges_y.
  - apply (reflected_functional _ _ _ _ _ _ (edges_z b));
      rewrite Hc, Hv; apply edges_z.
Qed.

Lemma edges_channel_by_channel_witness :
  rgb (edges approaching256) = createVector 255 0 100 /\
  rgbVel (edges approaching256) = createVector (-1) (-2) 3.
Proof.
  destruct (edges_channel_by_channel approaching256 approaching256)
    as (((Hx & _ & _) & (_ & Hy & _) & (_ & _ & Hz)) & _).
  simpl in Hx, Hy, Hz.
  destruct Hx as [Hx1 Hx2]; [lra |].
  destruct Hy as [Hy1 Hy2]; [lra |].
  destruct Hz as [Hz1 Hz2]; [lra |].
  split; apply vector_eq; simpl; lra.
Defined.

(** C9. After [update] the accumulator is the zero vector; the forces it
    held were used first: the new velocity is the old one plus the
    accumulator, limited to [maxspeed], and the new colour is the old one
    plus that velocity, both then reflected channel by channel.  A force
    applied in the next frame is all the accumulator holds then. *)
Theorem acceleration_cleared_after_use (b : Block) (force : Vector) :
  rgbAcc (update b) = P5.zero /\
  (let v := P5.limit (P5.add (rgbVel b) (rgbAcc b)) (maxspeed b) in
   reflected (P5.x (rgb b) + P5.x v) (P5.x v)
             (P5.x (rgb (update b))) (P5.x (rgbVel (update b))) /\
   reflected (P5.y (rgb b) + P5.y v) (P5.y v)
             (P5.y (rgb (update b))) (P5.y (rgbVel (update b))) /\
   reflected (P5.z (rgb b) + P5.z v) (P5.z v)
             (P5.z (rgb (update b))) (P5.z (rgbVel (update b)))) /\
  rgbAcc (applyForce force (update b)) = force.
Proof.
  split; [apply update_rgbAcc |].
  split.
  - cbv zeta. rewrite update_unfold; cbn [rgb rgbVel set_rgbAcc].
    match goal with |- context [edges ?c] =>
      pose proof (edges_x c) as Hx; pose proof (edges_y c) as Hy;
      pose proof (edges_z c) as Hz end.
    simpl in Hx, Hy, Hz. auto.
  - unfold applyForce; cbn [rgbAcc set_rgbAcc].
    rewrite update_rgbAcc; apply add_zero_l.
Qed.

(** C4. Speed invariant: when [maxspeed] is not negative, the velocity an
    agent has right after [update], boundary reflection included, is no
    longer than [maxspeed]. *)
Theorem speed_bounded_after_update (b : Block) :
  0 <= maxspeed b ->
  P5.mag (rgbVel (update b)) <= maxspeed b.
Proof. apply update_speed. Qed.

Lemma speed_bounded_after_update_witness :
  P5.mag (rgbVel (update approaching256)) <= 1.5.
Proof.
  apply (speed_bounded_after_update approaching256); simpl; lra.
Defined.

Section Forces.

Variable this : Block.
Hypothesis maxforce_nonneg : 0 <= maxforce this.

Lemma mag_zero_le_maxforce : P5.mag (createVector 0 0 0) <= maxforce this.
Proof. change (createVector 0 0 0) with P5.zero; rewrite mag_zero; assumption. Qed.

Lemma seek_bounded (target : Vector) : P5.mag (seek this target) <= maxforce this.
Proof. unfold seek; apply mag_limit; assumption. Qed.

Lemma separate_bounded (blocks : list (option Block)) :
  P5.mag (separate this blocks) <= maxforce this.
Proof.
  unfold separate.
  destruct (scan _ blocks _ _) as [sum count].
  destruct (0 <? count)%nat;
    [apply mag_limit; assumption | apply mag_zero_le_maxforce].
Qed.

Lemma align_bounded (blocks : list (option Block)) :
  P5.mag (align this blocks) <= maxforce this.
Proof.
  unfold align.
  destruct (scan _ blocks _ _) as [sum count].
  destruct (0 <? count)%nat;
    [apply mag_limit; assumption | apply mag_zero_le_maxforce].
Qed.

Lemma cohesion_bounded (blocks : list (option Block)) :
  P5.mag (cohesion this blocks) <= maxforce this.
Proof.
  unfold cohesion.
  destruct (scan _ blocks _ _) as [sum count].
  destruct (0 <? count)%nat;
    [apply seek_bounded | apply mag_zero_le_maxforce].
Qed.

End Forces.

(** C5. Force invariant: when [maxforce] is not negative, the vectors that
    [separate], [align], [cohesion] and [seek] return, before [flock] scales
    them by the sliders, are no longer than [maxforce]. *)
Theorem forces_bounded (this : Block) (blocks : list (option Block))
        (target : Vector) :
  0 <= maxforce this ->
  P5.mag (separate this blocks) <= maxforce this /\
  P5.mag (align this blocks) <= maxforce this /\
  P5.mag (cohesion this blocks) <= maxforce this /\
  P5.mag (seek this target) <= maxforce this.
Proof.
  intros Hmf; repeat split.
  - apply separate_bounded, Hmf.
  - apply align_bounded, Hmf.
  - apply cohesion_bounded, Hmf.
  - apply seek_bounded, Hmf.
Qed.

Lemma forces_bounded_witness :
  P5.mag (separate drifting [Some approaching256; None; Some drifting]) <= 0.01 /\
  P5.mag (align drifting [Some approaching256; None; Some drifting]) <= 0.01 /\
  P5.mag (cohesion drifting [Some approaching256; None; Some drifting]) <= 0.01 /\
  P5.mag (seek drifting (createVector 255 255 255)) <= 0.01.
Proof.
  apply (forces_bounded drifting [Some approaching256; None; Some drifting]
                        (createVector 255 255 255)).
  simpl; lra.
Defined.

(** ** Seeking the current colour *)

Lemma seek_own_color (this : Block) :
  seek this (rgb this) =
  P5.limit (P5.sub P5.zero (rgbVel this)) (maxforce this).
Proof.
  unfold seek.
  rewrite sub_self, normalize_zero, mult_zero_l; reflexivity.
Qed.

(** C3, as the claim has it, fails: an agent that drifts with velocity
    (0.005, 0, 0) and seeks its own colour is steered by (-0.005, 0, 0),
    not by the zero vector. *)
Lemma seek_own_color_not_zero :
  seek drifting (rgb drifting) = createVector (-0.005) 0 0 /\
  seek drifting (rgb drifting) <> P5.zero.
Proof.
  assert (H : seek drifting (rgb drifting) = createVector (-0.005) 0 0).
  { rewrite seek_own_color, limit_short.
    - apply vector_eq; simpl; lra.
    - unfold P5.magSq; simpl; lra. }
  split; [exact H |].
  rewrite H; intros Heq.
  apply (f_equal P5.x) in Heq; simpl in Heq; lra.
Qed.

(** C3, amended.  [seek] with the agent's own colour as target returns the
    opposite of the velocity, limited to [maxforce]: the direction to the
    target is the zero vector, which [normalize] leaves as it is.  The
    result is the zero vector when the velocity is the zero vector. *)
Theorem seek_own_color_opposes_velocity (this : Block) :
  seek this (rgb this) =
    P5.limit (P5.sub P5.zero (rgbVel this)) (maxforce this) /\
  (rgbVel this = P5.zero -> seek this (rgb this) = P5.zero).
Proof.
  split; [apply seek_own_color |].
  intros Hv; rewrite seek_own_color, Hv, sub_self; apply limit_zero.
Qed.

Lemma seek_own_color_opposes_velocity_witness :
  seek (newBlock 0 0 10 sampleDraws) (rgb (newBlock 0 0 10 sampleDraws))
  = P5.zero.
Proof.
  apply (seek_own_color_opposes_velocity (newBlock 0 0 10 sampleDraws)).
  reflexivity.
Defined.

(** ** Construction *)

Lemma floor_random_byte (u : R) :
  0 <= u < 1 -> byteValue (floor (random 256 u)).
Proof.
  intros [Hlo Hhi]; unfold byteValue, floor, random.
  exists (Int_part (u * 256)); split; [reflexivity |].
  destruct (base_Int_part (u * 256)) as [Hle Hgt].
  assert (H1 : IZR (-1) < IZR (Int_part (u * 256))) by lra.
  assert (H2 : IZR (Int_part (u * 256)) < IZR 256) by lra.
  apply lt_IZR in H1, H2; lia.
Qed.

(** C10. A new agent has zero velocity and zero acceleration, and each
    component of its colour is an integer of [0, 255], the floor of a draw
    from [0, 256); [randomizeColor] gives a colour of the same kind and
    leaves velocity and acceleration as they are. *)
Theorem new_agent_state (px py s : R) (d d' : Draws) (this : Block) :
  unitDraws d -> unitDraws d' ->
  rgbVel (newBlock px py s d) = P5.zero /\
  rgbAcc (newBlock px py s d) = P5.zero /\
  byteColor (rgb (newBlock px py s d)) /\
  byteColor (rgb (randomizeColor d' this)) /\
  rgbVel (randomizeColor d' this) = rgbVel this /\
  rgbAcc (randomizeColor d' this) = rgbAcc this.
Proof.
  intros (Hr & Hg & Hb) (Hr' & Hg' & Hb').
  repeat split; try reflexivity; simpl; apply floor_random_byte; assumption.
Qed.

Lemma new_agent_state_witness :
  rgbVel (newBlock 0 0 10 sampleDraws) = P5.zero /\
  rgbAcc (newBlock 0 0 10 sampleDraws) = P5.zero /\
  byteColor (rgb (newBlock 0 0 10 sampleDraws)) /\
  byteColor (rgb (randomizeColor sampleDraws drifting)) /\
  rgbVel (randomizeColor sampleDraws drifting) = rgbVel drifting /\
  rgbAcc (randomizeColor sampleDraws drifting) = rgbAcc drifting.
Proof.
  apply new_agent_state; unfold unitDraws; simpl; lra.
Defined.

(** ** The agent alone *)

Section Alone.

Lemma div_zero (n : R) : P5.div P5.zero n = P5.zero.
Proof.
  unfold P5.div; destruct (Req_dec_T n 0); [reflexivity |].
  apply vector_eq; simpl; field; assumption.
Qed.

Lemma div_one (v : Vector) : P5.div v (INR 1) = v.
Proof.
  unfold P5.div; simpl.
  destruct (Req_dec_T 1 0); [lra |].
  apply vector_eq; simpl; field.
Qed.

Lemma steer_still (this : Block) :
  rgbVel this = P5.zero ->
  P5.limit (P5.sub (P5.mult (P5.normalize P5.zero) (maxspeed this)) (rgbVel this))
           (maxforce this) = P5.zero.
Proof.
  intros Hv; rewrite Hv.
  autorewrite with vec; reflexivity.
Qed.

Variable this : Block.
Hypothesis still : rgbVel this = P5.zero.

Lemma separate_alone : separate this [Some this] = P5.zero.
Proof.
  unfold separate; simpl scan; cbv iota beta.
  change (0 <? 1)%nat with true; cbv iota.
  rewrite sub_self, normalize_zero.
  change (createVector 0 0 0) with P5.zero.
  rewrite add_zero_l, div_zero.
  apply steer_still, still.
Qed.

Lemma align_alone : align this [Some this] = P5.zero.
Proof.
  unfold align; simpl scan; cbv iota beta.
  change (0 <? 1)%nat with true; cbv iota.
  change (createVector 0 0 0) with P5.zero.
  rewrite still, add_zero_l, div_zero.
  rewrite <- still at 2.
  apply steer_still, still.
Qed.

Lemma cohesion_alone : cohesion this [Some this] = P5.zero.
Proof.
  unfold cohesion; simpl scan; cbv iota beta.
  change (0 <? 1)%nat with true; cbv iota.
  change (createVector 0 0 0) with P5.zero.
  rewrite add_zero_l, div_one, seek_own_color, still, sub_self.
  apply limit_zero.
Qed.

Lemma flock_alone (sl : Sliders) : flock sl [Some this] this = this.
Proof.
  unfold flock.
  rewrite separate_alone, align_alone, cohesion_alone.
  unfold applyForce, set_rgbAcc; simpl.
  rewrite !mult_zero_l, !add_zero_r.
  destruct this; reflexivity.
Qed.

Hypothesis rested : rgbAcc this = P5.zero.
Hypothesis inside : colorInRange (rgb this).

Lemma update_still : update this = this.
Proof.
  rewrite update_unfold, still, rested.
  autorewrite with vec.
  rewrite edges_inside by (simpl; exact inside).
  destruct this as [p c v a sz rd ms mf]; simpl in *.
  subst v a; reflexivity.
Qed.

Lemma frame_alone (sl : Sliders) : frame sl [Some this] this = this.
Proof. unfold frame; rewrite flock_alone; apply update_still. Qed.

End Alone.

Lemma alone_fixed (sls : list Sliders) (b : Block) :
  rgbVel b = P5.zero -> rgbAcc b = P5.zero -> colorInRange (rgb b) ->
  alone sls b = b.
Proof.
  intros Hv Ha Hc; induction sls as [| sl rest IH]; simpl.
  - reflexivity.
  - rewrite frame_alone by assumption; exact IH.
Qed.

(** C8. A flock of one agent that starts a frame at rest (zero velocity,
    empty accumulator, colour inside the cube): in every frame the three
    rules return the zero vector and [flock] adds nothing to the
    accumulator, and after any number of frames the velocity is still zero
    and the colour is the one the agent started with. *)
Theorem lone_agent_stays_still (sls : list Sliders) (sl : Sliders) (b : Block) :
  rgbVel b = P5.zero -> rgbAcc b = P5.zero -> colorInRange (rgb b) ->
  separate (alone sls b) [Some (alone sls b)] = P5.zero /\
  align (alone sls b) [Some (alone sls b)] = P5.zero /\
  cohesion (alone sls b) [Some (alone sls b)] = P5.zero /\
  rgbAcc (flock sl [Some (alone sls b)] (alone sls b)) = P5.zero /\
  rgbVel (alone sls b) = P5.zero /\
  rgb (alone sls b) = rgb b.
Proof.
  intros Hv Ha Hc.
  rewrite (alone_fixed sls b Hv Ha Hc).
  repeat split.
  - apply separate_alone, Hv.
  - apply align_alone, Hv.
  - apply cohesion_alone, Hv.
  - rewrite flock_alone by exact Hv; exact Ha.
  - exact Hv.
Qed.

Lemma lone_agent_stays_still_witness :
  rgbVel (alone [defaultSliders; defaultSliders; defaultSliders]
                (mkBlock P5.zero (createVector 12 200 255) P5.zero P5.zero
                         10 15 1.5 0.01)) = P5.zero /\
  rgb (alone [defaultSliders; defaultSliders; defaultSliders]
             (mkBlock P5.zero (createVector 12 200 255) P5.zero P5.zero
                      10 15 1.5 0.01)) = createVector 12 200 255.
Proof.
  destruct (lone_agent_stays_still
              [defaultSliders; defaultSliders; defaultSliders] defaultSliders
              (mkBlock P5.zero (createVector 12 200 255) P5.zero P5.zero
                       10 15 1.5 0.01)) as (_ & _ & _ & _ & Hv & Hc).
  - reflexivity.
  - reflexivity.
  - unfold colorInRange, inRange; simpl; lra.
  - split; [exact Hv | exact Hc].
Defined.

(** ** The rules as sums over the peer array *)

Section Aggregates.

Lemma vsum_app (l1 l2 : list Vector) :
  vsum (l1 ++ l2) = P5.add (vsum l1) (vsum l2).
Proof.
  induction l1 as [| v l1 IH]; simpl.
  - symmetry; apply add_zero_l.
  - fold (vsum (l1 ++ l2)); fold (vsum l1). rewrite IH, add_assoc; reflexivity.
Qed.

Lemma vsum_perm (l1 l2 : list Vector) :
  Permutation l1 l2 -> vsum l1 = vsum l2.
Proof.
  induction 1 as [| v l1 l2 _ IH | v w l | l1 l2 l3 _ IH1 _ IH2]; simpl.
  - reflexivity.
  - fold (vsum l1); fold (vsum l2); rewrite IH; reflexivity.
  - fold (vsum l).
    rewrite <- !add_assoc, (add_comm w v); reflexivity.
  - rewrite IH1; exact IH2.
Qed.


Lemma live_map_Some (l : list Block) : live (map Some l) = l.
Proof. induction l as [| b l IH]; simpl; [| rewrite IH]; reflexivity. Qed.

Lemma live_perm (l1 l2 : list (option Block)) :
  Permutation l1 l2 -> Permutation (live l1) (live l2).
Proof.
  induction 1 as [| [b |] l1 l2 _ IH | [v |] [w |] l | l1 l2 l3 _ IH1 _ IH2];
    simpl; auto.
  - apply perm_swap.
  - eapply perm_trans; eassumption.
Qed.

(** The loop adds one term per non-null slot and counts those slots. *)
Lemma scan_live (term : Block -> Vector) (blocks : list (option Block)) :
  forall (sum : Vector) (count : nat),
    scan term blocks sum count =
    (P5.add sum (vsum (map term (live blocks))),
     (count + length (live blocks))%nat).
Proof.
  induction blocks as [| [b |] rest IH]; intros sum count; simpl.
  - rewrite add_zero_r, Nat.add_0_r; reflexivity.
  - rewrite IH.
    fold (vsum (map term (live rest))).
    rewrite add_assoc, Nat.add_succ_r; reflexivity.
  - apply IH.
Qed.

Lemma separate_live (this : Block) (blocks : list (option Block)) :
  separate this blocks = separateOver this (live blocks).
Proof.
  unfold separate; rewrite scan_live.
  change (createVector 0 0 0) with P5.zero; rewrite add_zero_l.
  destruct (live blocks) as [| p ps]; reflexivity.
Qed.

Lemma align_live (this : Block) (blocks : list (option Block)) :
  align this blocks = alignOver this (live blocks).
Proof.
  unfold align; rewrite scan_live.
  change (createVector 0 0 0) with P5.zero; rewrite add_zero_l.
  destruct (live blocks) as [| p ps]; reflexivity.
Qed.

Lemma cohesion_live (this : Block) (blocks : list (option Block)) :
  cohesion this blocks = cohesionOver this (live blocks).
Proof.
  unfold cohesion; rewrite scan_live.
  change (createVector 0 0 0) with P5.zero; rewrite add_zero_l.
  destruct (live blocks) as [| p ps]; reflexivity.
Qed.

End Aggregates.

Section SelfAmongPeers.

Lemma div_as_mult (v : Vector) (n : R) : n <> 0 -> P5.div v n = P5.mult v (/ n).
Proof.
  intros Hn; unfold P5.div.
  destruct (Req_dec_T n 0); [contradiction |].
  apply vector_eq; reflexivity.
Qed.

(** Scaling by a positive factor does not change the direction. *)
Lemma normalize_scale (v : Vector) (k : R) :
  0 < k -> P5.normalize (P5.mult v k) = P5.normalize v.
Proof.
  intros Hk; unfold P5.normalize.
  rewrite mag_mult by lra.
  destruct (Req_dec_T (P5.mag v) 0) as [Hz | Hnz].
  - rewrite Hz, Rmult_0_r.
    destruct (Req_dec_T 0 0) as [_ | H]; [| contradiction].
    rewrite (mag_eq_0 v Hz); apply mult_zero_l.
  - destruct (Req_dec_T (k * P5.mag v) 0) as [H | _]; [nra |].
    apply vector_eq; simpl; field; split; lra.
Qed.

Lemma INR_S_pos (n : nat) : 0 < INR (S n).
Proof. apply lt_0_INR; lia. Qed.

Lemma normalize_div_S (v : Vector) (n : nat) :
  P5.normalize (P5.div v (INR (S n))) = P5.normalize v.
Proof.
  pose proof (INR_S_pos n) as Hpos.
  rewrite div_as_mult by lra.
  apply normalize_scale, Rinv_0_lt_compat, Hpos.
Qed.



Lemma separateOver_perm (this : Block) (l1 l2 : list Block) :
  Permutation l1 l2 -> separateOver this l1 = separateOver this l2.
Proof.
  intros Hp.
  destruct l1 as [| p1 r1], l2 as [| p2 r2].
  - reflexivity.
  - apply Permutation_nil in Hp; discriminate.
  - symmetry in Hp; apply Permutation_nil in Hp; discriminate.
  - unfold separateOver.
    rewrite (Permutation_length Hp).
    rewrite (vsum_perm _ _ (Permutation_map _ Hp)); reflexivity.
Qed.


Lemma cohesionOver_perm (this : Block) (l1 l2 : list Block) :
  Permutation l1 l2 -> cohesionOver this l1 = cohesionOver this l2.
Proof.
  intros Hp.
  destruct l1 as [| p1 r1], l2 as [| p2 r2].
  - reflexivity.
  - apply Permutation_nil in Hp; discriminate.
  - symmetry in Hp; apply Permutation_nil in Hp; discriminate.
  - unfold cohesionOver.
    rewrite (Permutation_length Hp).
    rewrite (vsum_perm _ _ (Permutation_map _ Hp)); reflexivity.
Qed.

(** The agent's own slot adds the zero vector to the sum of [separate] but
    is counted; the direction of the average is the same with and without
    it. *)
Lemma separateOver_self (a p : Block) (ps : list Block) :
  separateOver a (a :: p :: ps) = separateOver a (p :: ps).
Proof.
  unfold separateOver, steerAlong.
  cbn [length]; rewrite !normalize_div_S.
  cbn [map vsum fold_right].
  rewrite sub_self, normalize_zero, add_zero_l; reflexivity.
Qed.

(** The centroid with the agent's own colour in it lies on the segment from
    the agent to the centroid of the others: [seek] steers the same way. *)
Lemma cohesionOver_self (a p : Block) (ps : list Block) :
  cohesionOver a (a :: p :: ps) = cohesionOver a (p :: ps).
Proof.
  unfold cohesionOver, seek.
  set (C := vsum (map rgb (p :: ps))).
  set (n := length ps).
  replace (vsum (map rgb (a :: p :: ps))) with (P5.add (rgb a) C) by reflexivity.
  replace (length (a :: p :: ps)) with (S (S n)) by reflexivity.
  replace (length (p :: ps)) with (S n) by reflexivity.
  pose proof (INR_S_pos n) as Hn.
  pose proof (INR_S_pos (S n)) as Hn1.
  assert (HS : INR (S (S n)) = INR (S n) + 1) by apply S_INR.
  replace (P5.sub (P5.div (P5.add (rgb a) C) (INR (S (S n)))) (rgb a))
    with (P5.mult (P5.sub (P5.div C (INR (S n))) (rgb a))
                  (INR (S n) / INR (S (S n)))).
  - rewrite normalize_scale; [reflexivity |].
    apply Rdiv_lt_0_compat; assumption.
  - rewrite !div_as_mult by lra.
    rewrite HS in *.
    generalize dependent (INR (S n)); intros m Hm Hm1 _.
    apply vector_eq; simpl; field; split; lra.
Qed.

End SelfAmongPeers.

(** ** Vectors along the red axis *)

Section RedAxis.

Lemma mag_axis (a : R) : 0 <= a -> P5.mag (createVector a 0 0) = a.
Proof.
  intros Ha; unfold P5.mag.
  apply sqrt_lem_1; [apply magSq_nonneg | exact Ha |].
  unfold P5.magSq; simpl; ring.
Qed.






End RedAxis.




(** An agent that is the only non-null entry of the array is its own peer:
    [separate] on the array [drifting] returns the opposite of the velocity
    of [drifting], and the zero vector on the empty array. *)
Lemma separate_counts_own_slot :
  separate drifting [Some drifting] = createVector (-0.005) 0 0 /\
  separate drifting (without 0 [Some drifting]) = P5.zero.
Proof.
  split; [| reflexivity].
  rewrite separate_live; unfold separateOver, steerAlong; cbn [live length map].
  rewrite sub_self, normalize_zero.
  cbn [vsum fold_right]; rewrite add_zero_l, div_zero, normalize_zero, mult_zero_l.
  rewrite limit_short.
  - apply vector_eq; simpl; lra.
  - unfold P5.magSq; simpl; lra.
Qed.



(** ** The two phases of a step *)

Section Step.

Variable sl : Sliders.

Lemma separateOver_view (this : Block) (s l : list Block) :
  map rgb s = map rgb l -> separateOver this s = separateOver this l.
Proof.
  intros Hv.
  assert (Hlen : length s = length l)
    by (rewrite <- (length_map rgb s), Hv; apply length_map).
  destruct s as [| p ps], l as [| q qs]; try discriminate; [reflexivity |].
  unfold separateOver; rewrite Hlen.
  rewrite <- (map_map rgb (fun c => P5.normalize (P5.sub (rgb this) c))).
  rewrite <- (map_map rgb (fun c => P5.normalize (P5.sub (rgb this) c)) (q :: qs)).
  rewrite Hv; reflexivity.
Qed.

Lemma alignOver_view (this : Block) (s l : list Block) :
  map rgbVel s = map rgbVel l -> alignOver this s = alignOver this l.
Proof.
  intros Hv.
  assert (Hlen : length s = length l)
    by (rewrite <- (length_map rgbVel s), Hv; apply length_map).
  destruct s as [| p ps], l as [| q qs]; try discriminate; [reflexivity |].
  unfold alignOver; rewrite Hlen, Hv; reflexivity.
Qed.

Lemma cohesionOver_view (this : Block) (s l : list Block) :
  map rgb s = map rgb l -> cohesionOver this s = cohesionOver this l.
Proof.
  intros Hv.
  assert (Hlen : length s = length l)
    by (rewrite <- (length_map rgb s), Hv; apply length_map).
  destruct s as [| p ps], l as [| q qs]; try discriminate; [reflexivity |].
  unfold cohesionOver; rewrite Hlen, Hv; reflexivity.
Qed.

(** [flock] reads colours and velocities of the peers and nothing else. *)
Lemma flock_view (s l : list Block) (b : Block) :
  sameView s l -> flock sl (map Some s) b = flock sl (map Some l) b.
Proof.
  intros [Hc Hv]; unfold flock.
  rewrite !separate_live, !align_live, !cohesion_live, !live_map_Some.
  rewrite (separateOver_view b s l Hc), (alignOver_view b s l Hv),
          (cohesionOver_view b s l Hc).
  reflexivity.
Qed.

Lemma assign_nth_error (i k : nat) (b : Block) (s : list Block) :
  (i < length s)%nat ->
  nth_error (assign i b s) k = if Nat.eq_dec k i then Some b else nth_error s k.
Proof.
  revert i k; induction s as [| a s IH]; intros i k Hi; simpl in Hi; [lia |].
  destruct i as [| i]; simpl.
  - destruct k; reflexivity.
  - destruct k as [| k]; simpl; [reflexivity |].
    rewrite IH by lia.
    destruct (Nat.eq_dec k i), (Nat.eq_dec (S k) (S i)); try lia; reflexivity.
Qed.

Variable snapshot : list Block.

Local Abbreviation inv := (storeAfter sl snapshot).

Lemma partway_view (done : list nat) (k : nat) (b : Block) :
  rgb (partway sl snapshot done k b) = rgb b /\
  rgbVel (partway sl snapshot done k b) = rgbVel b.
Proof.
  unfold partway; destruct (in_dec Nat.eq_dec k done); split; reflexivity.
Qed.

Lemma inv_sameView (done : list nat) (s : list Block) :
  inv done s -> sameView s snapshot.
Proof.
  intros Hinv; split; apply nth_error_ext; intros k;
    rewrite !nth_error_map, Hinv;
    destruct (nth_error snapshot k) as [b |]; simpl; try reflexivity;
    destruct (partway_view done k b) as [Hc Hv]; congruence.
Qed.

Lemma inv_flockAt (done : list nat) (s : list Block) (i : nat) :
  ~ In i done -> inv done s -> inv (i :: done) (flockAt sl s i).
Proof.
  intros Hnew Hinv k; unfold flockAt.
  pose proof (Hinv i) as Hi.
  destruct (nth_error snapshot i) as [b0 |] eqn:Hb0; simpl in Hi.
  - rewrite Hi.
    assert (Hlen : (i < length s)%nat)
      by (apply nth_error_Some; rewrite Hi; discriminate).
    rewrite assign_nth_error by exact Hlen.
    rewrite (flock_view s snapshot _ (inv_sameView done s Hinv)).
    unfold partway at 1.
    destruct (in_dec Nat.eq_dec i done) as [Hin | _]; [contradiction |].
    destruct (Nat.eq_dec k i) as [-> | Hne].
    + rewrite Hb0; simpl; unfold partway.
      destruct (in_dec Nat.eq_dec i (i :: done)) as [_ | Hout];
        [reflexivity | exfalso; apply Hout; left; reflexivity].
    + rewrite Hinv.
      destruct (nth_error snapshot k) as [b |]; simpl; [| reflexivity].
      unfold partway.
      destruct (in_dec Nat.eq_dec k done) as [Hin | Hout],
               (in_dec Nat.eq_dec k (i :: done)) as [Hin' | Hout'];
        try reflexivity.
      * exfalso; apply Hout'; right; exact Hin.
      * destruct Hin' as [Heq | Hin']; [congruence | contradiction].
  - rewrite Hi, Hinv.
    destruct (nth_error snapshot k) as [b |] eqn:Hb; simpl; [| reflexivity].
    unfold partway.
    destruct (in_dec Nat.eq_dec k done) as [Hin | Hout],
             (in_dec Nat.eq_dec k (i :: done)) as [Hin' | Hout'];
      try reflexivity.
    + exfalso; apply Hout'; right; exact Hin.
    + destruct Hin' as [Heq | Hin']; [congruence | contradiction].
Qed.

Lemma inv_flockPass (order : list nat) :
  forall (done : list nat) (s : list Block),
    NoDup order -> (forall i, In i order -> ~ In i done) ->
    inv done s -> inv (rev order ++ done) (flockPass sl order s).
Proof.
  induction order as [| i order IH]; intros done s Hnd Hfresh Hinv.
  - exact Hinv.
  - simpl. rewrite <- app_assoc. simpl.
    inversion Hnd as [| ? ? Hni Hnd']; subst.
    apply IH.
    + exact Hnd'.
    + intros j Hj [Heq | Hin]; [subst; contradiction |].
      apply (Hfresh j); [right; exact Hj | exact Hin].
    + apply inv_flockAt; [apply Hfresh; left; reflexivity | exact Hinv].
Qed.

(** After the first phase every agent holds the forces computed from the
    start-of-frame snapshot, in whatever order the agents were visited. *)
Lemma flockPass_snapshot (order : list nat) :
  Permutation order (seq 0 (length snapshot)) ->
  flockPass sl order snapshot = map (flocked sl snapshot) snapshot.
Proof.
  intros Hp.
  assert (Hnd : NoDup order)
    by (apply (Permutation_NoDup (Permutation_sym Hp)), seq_NoDup).
  assert (Hinv : inv (rev order ++ []) (flockPass sl order snapshot)).
  { apply inv_flockPass; [exact Hnd | intros i _ [] |].
    intros k; destruct (nth_error snapshot k); reflexivity. }
  apply nth_error_ext; intros k.
  rewrite Hinv, nth_error_map.
  destruct (nth_error snapshot k) as [b |] eqn:Hb; simpl; [| reflexivity].
  unfold partway.
  destruct (in_dec Nat.eq_dec k (rev order ++ [])) as [_ | Hout];
    [reflexivity |].
  exfalso; apply Hout.
  rewrite app_nil_r; apply in_rev; rewrite rev_involutive.
  apply (Permutation_in _ (Permutation_sym Hp)), in_seq.
  assert (k < length snapshot)%nat
    by (apply nth_error_Some; rewrite Hb; discriminate).
  lia.
Qed.

End Step.

Lemma stepIn_snapshot (sl : Sliders) (order : list nat) (l : list Block) :
  Permutation order (seq 0 (length l)) ->
  stepIn sl order l = map (fun b => update (flock sl (map Some l) b)) l.
Proof.
  intros Hp; unfold stepIn, updatePass.
  rewrite flockPass_snapshot by exact Hp.
  rewrite map_map; reflexivity.
Qed.

Lemma step_snapshot (sl : Sliders) (l : list Block) :
  step sl l = map (fun b => update (flock sl (map Some l) b)) l.
Proof. apply stepIn_snapshot, Permutation_refl. Qed.

(** ** The two phases over binary64 *)

Section Step64.

Variable sl : F64.Sliders.

Lemma scan64_view (term : F64.Block -> F64.Vector) (s l : list F64.Block) :
  map term s = map term l ->
  forall sum count,
    F64.scan term (map Some s) sum count = F64.scan term (map Some l) sum count.
Proof.
  revert l; induction s as [| a s IH]; intros [| b l] Hm sum count;
    try discriminate; [reflexivity |].
  simpl in Hm; injection Hm as Ht Hr.
  simpl; rewrite Ht; apply IH, Hr.
Qed.

(** [flock] reads colours and velocities of the peers and nothing else.
    No arithmetic is involved: the sums are taken over the same terms in
    the same order. *)
Lemma flock64_view (s l : list F64.Block) (b : F64.Block) :
  F64.sameView s l ->
  F64.flock sl (map Some s) b = F64.flock sl (map Some l) b.
Proof.
  intros [Hc Hv].
  assert (Hsep : map (fun o => F64.normalize (F64.sub (F64.rgb b) (F64.rgb o))) s
                 = map (fun o => F64.normalize (F64.sub (F64.rgb b) (F64.rgb o))) l).
  { rewrite <- (map_map F64.rgb (fun c => F64.normalize (F64.sub (F64.rgb b) c)) s).
    rewrite <- (map_map F64.rgb (fun c => F64.normalize (F64.sub (F64.rgb b) c)) l).
    rewrite Hc; reflexivity. }
  unfold F64.flock, F64.separate, F64.align, F64.cohesion.
  rewrite (scan64_view _ s l Hsep), (scan64_view _ s l Hv),
          (scan64_view _ s l Hc).
  reflexivity.
Qed.

Lemma assign64_nth_error (i k : nat) (b : F64.Block) (s : list F64.Block) :
  (i < length s)%nat ->
  nth_error (F64.assign i b s) k
  = if Nat.eq_dec k i then Some b else nth_error s k.
Proof.
  revert i k; induction s as [| a s IH]; intros i k Hi; simpl in Hi; [lia |].
  destruct i as [| i]; simpl.
  - destruct k; reflexivity.
  - destruct k as [| k]; simpl; [reflexivity |].
    rewrite IH by lia.
    destruct (Nat.eq_dec k i), (Nat.eq_dec (S k) (S i)); try lia; reflexivity.
Qed.

Variable snapshot : list F64.Block.

Lemma partway64_view (done : list nat) (k : nat) (b : F64.Block) :
  F64.rgb (F64.partway sl snapshot done k b) = F64.rgb b /\
  F64.rgbVel (F64.partway sl snapshot done k b) = F64.rgbVel b.
Proof.
  unfold F64.partway; destruct (in_dec Nat.eq_dec k done); split; reflexivity.
Qed.

Lemma storeAfter64_sameView (done : list nat) (s : list F64.Block) :
  F64.storeAfter sl snapshot done s -> F64.sameView s snapshot.
Proof.
  intros Hinv; split; apply nth_error_ext; intros k;
    rewrite !nth_error_map, Hinv;
    destruct (nth_error snapshot k) as [b |]; simpl; try reflexivity;
    destruct (partway64_view done k b) as [Hc Hv]; congruence.
Qed.

Lemma partway64_cons (done : list nat) (i k : nat) (b : F64.Block) :
  k <> i ->
  F64.partway sl snapshot (i :: done) k b = F64.partway sl snapshot done k b.
Proof.
  intros Hne; unfold F64.partway.
  destruct (in_dec Nat.eq_dec k done) as [Hin | Hout],
           (in_dec Nat.eq_dec k (i :: done)) as [Hin' | Hout'];
    try reflexivity.
  - exfalso; apply Hout'; right; exact Hin.
  - destruct Hin' as [Heq | Hin']; [congruence | contradiction].
Qed.

Lemma storeAfter64_flockAt (done : list nat) (s : list F64.Block) (i : nat) :
  ~ In i done -> F64.storeAfter sl snapshot done s ->
  F64.storeAfter sl snapshot (i :: done) (F64.flockAt sl s i).
Proof.
  intros Hnew Hinv k; unfold F64.flockAt.
  pose proof (Hinv i) as Hi.
  destruct (nth_error snapshot i) as [b0 |] eqn:Hb0; simpl in Hi.
  - rewrite Hi.
    assert (Hlen : (i < length s)%nat)
      by (apply nth_error_Some; rewrite Hi; discriminate).
    rewrite assign64_nth_error by exact Hlen.
    rewrite (flock64_view s snapshot _ (storeAfter64_sameView done s Hinv)).
    unfold F64.partway at 1.
    destruct (in_dec Nat.eq_dec i done) as [Hin | _]; [contradiction |].
    destruct (Nat.eq_dec k i) as [-> | Hne].
    + rewrite Hb0; simpl; unfold F64.partway.
      destruct (in_dec Nat.eq_dec i (i :: done)) as [_ | Hout];
        [reflexivity | exfalso; apply Hout; left; reflexivity].
    + rewrite Hinv.
      destruct (nth_error snapshot k) as [b |]; simpl; [| reflexivity].
      rewrite partway64_cons by exact Hne; reflexivity.
  - rewrite Hi, Hinv.
    destruct (nth_error snapshot k) as [b |] eqn:Hb; simpl; [| reflexivity].
    rewrite partway64_cons by congruence; reflexivity.
Qed.

Lemma storeAfter64_flockPass (order : list nat) :
  forall (done : list nat) (s : list F64.Block),
    NoDup order -> (forall i, In i order -> ~ In i done) ->
    F64.storeAfter sl snapshot done s ->
    F64.storeAfter sl snapshot (rev order ++ done) (F64.flockPass sl order s).
Proof.
  induction order as [| i order IH]; intros done s Hnd Hfresh Hinv.
  - exact Hinv.
  - simpl. rewrite <- app_assoc. simpl.
    inversion Hnd as [| ? ? Hni Hnd']; subst.
    apply IH.
    + exact Hnd'.
    + intros j Hj [Heq | Hin]; [subst; contradiction |].
      apply (Hfresh j); [right; exact Hj | exact Hin].
    + apply storeAfter64_flockAt;
        [apply Hfresh; left; reflexivity | exact Hinv].
Qed.

Lemma flockPass64_snapshot (order : list nat) :
  Permutation order (seq 0 (length snapshot)) ->
  F64.flockPass sl order snapshot = map (F64.flocked sl snapshot) snapshot.
Proof.
  intros Hp.
  assert (Hnd : NoDup order)
    by (apply (Permutation_NoDup (Permutation_sym Hp)), seq_NoDup).
  assert (Hinv : F64.storeAfter sl snapshot (rev order ++ [])
                                (F64.flockPass sl order snapshot)).
  { apply storeAfter64_flockPass; [exact Hnd | intros i _ [] |].
    intros k; destruct (nth_error snapshot k); reflexivity. }
  apply nth_error_ext; intros k.
  rewrite Hinv, nth_error_map.
  destruct (nth_error snapshot k) as [b |] eqn:Hb; simpl; [| reflexivity].
  unfold F64.partway.
  destruct (in_dec Nat.eq_dec k (rev order ++ [])) as [_ | Hout];
    [reflexivity |].
  exfalso; apply Hout.
  rewrite app_nil_r; apply in_rev; rewrite rev_involutive.
  apply (Permutation_in _ (Permutation_sym Hp)), in_seq.
  assert (k < length snapshot)%nat
    by (apply nth_error_Some; rewrite Hb; discriminate).
  lia.
Qed.

End Step64.

Lemma stepIn64_snapshot
      (sl : F64.Sliders) (order : list nat) (l : list F64.Block) :
  Permutation order (seq 0 (length l)) ->
  F64.stepIn sl order l
  = map (fun b => F64.update (F64.flock sl (map Some l) b)) l.
Proof.
  intros Hp; unfold F64.stepIn, F64.updatePass.
  rewrite flockPass64_snapshot by exact Hp.
  rewrite map_map; reflexivity.
Qed.

(** C6, as the claim has it, fails over binary64.  The arrays
    [grey; light; dark; lightish; darkish] and
    [grey; light; lightish; dark; darkish] hold the same five agents, all
    at rest, with [grey] in slot 0.  After one step [grey] has velocity
    (0, 0, 0) in the first array and (0, 0, -0.012) in the second: the
    unit directions that [separate] adds up cancel in one order and leave
    a rounding residue in the other, which [normalize] stretches to full
    length. *)
Lemma step_depends_on_array_order :
  Permutation [F64.grey; F64.light; F64.dark; F64.lightish; F64.darkish]
              [F64.grey; F64.light; F64.lightish; F64.dark; F64.darkish] /\
  nth_error [F64.grey; F64.light; F64.dark; F64.lightish; F64.darkish] 0
    = Some F64.grey /\
  nth_error [F64.grey; F64.light; F64.lightish; F64.dark; F64.darkish] 0
    = Some F64.grey /\
  F64.hasVelocity (F64.rgbVel F64.grey)
    (nth_error (F64.step F64.defaultSliders
                  [F64.grey; F64.light; F64.dark; F64.lightish; F64.darkish]) 0)
    = true /\
  F64.hasVelocity F64.pushed
    (nth_error (F64.step F64.defaultSliders
                  [F64.grey; F64.light; F64.lightish; F64.dark; F64.darkish]) 0)
    = true /\
  nth_error (F64.step F64.defaultSliders
               [F64.grey; F64.light; F64.dark; F64.lightish; F64.darkish]) 0
  <> nth_error (F64.step F64.defaultSliders
                  [F64.grey; F64.light; F64.lightish; F64.dark; F64.darkish]) 0.
Proof.
  split; [do 2 apply perm_skip; apply perm_swap |].
  split; [reflexivity |].
  split; [reflexivity |].
  split; [vm_compute; reflexivity |].
  split; [vm_compute; reflexivity |].
  intros Heq.
  apply (f_equal (F64.hasVelocity F64.pushed)) in Heq.
  vm_compute in Heq; discriminate.
Qed.

(** C6, amended.  On one array of agents the order in which the agents
    are visited in the first phase does not matter: whatever permutation of
    the indices is followed, every agent ends the step as [update] leaves
    it after its [flock] against the start-of-frame array.  This holds
    over the reals and over binary64 alike.  (Reordering the array itself
    is another matter: each rule adds its terms in array order.) *)
Theorem step_visiting_order_free
        (sl : Sliders) (l : list Block)
        (sl64 : F64.Sliders) (l64 : list F64.Block) (order order64 : list nat) :
  (Permutation order (seq 0 (length l)) ->
   stepIn sl order l = step sl l /\
   step sl l = map (fun b => update (flock sl (map Some l) b)) l) /\
  (Permutation order64 (seq 0 (length l64)) ->
   F64.stepIn sl64 order64 l64 = F64.step sl64 l64 /\
   F64.step sl64 l64
   = map (fun b => F64.update (F64.flock sl64 (map Some l64) b)) l64).
Proof.
  split; intros Hp.
  - rewrite (stepIn_snapshot sl order l Hp), step_snapshot.
    split; reflexivity.
  - unfold F64.step.
    rewrite (stepIn64_snapshot sl64 order64 l64 Hp),
            (stepIn64_snapshot sl64 _ l64 (Permutation_refl _)).
    split; reflexivity.
Qed.

Lemma step_visiting_order_free_witness :
  stepIn defaultSliders [1; 0]%nat [eastbound; westbound]
    = step defaultSliders [eastbound; westbound] /\
  F64.stepIn F64.defaultSliders [2; 0; 1]%nat [F64.grey; F64.light; F64.darkish]
    = F64.step F64.defaultSliders [F64.grey; F64.light; F64.darkish].
Proof.
  destruct (step_visiting_order_free
              defaultSliders [eastbound; westbound]
              F64.defaultSliders [F64.grey; F64.light; F64.darkish]
              [1; 0]%nat [2; 0; 1]%nat) as [HR HF].
  split.
  - apply HR; simpl; apply perm_swap.
  - apply HF; simpl.
    apply perm_trans with [0; 2; 1]%nat;
      [apply perm_swap | apply perm_skip, perm_swap].
Defined.

(** ** Agents as the sketch makes them *)

Section Constructed.

Lemma byteValue_inRange (c : R) : byteValue c -> inRange c.
Proof.
  intros (k & -> & Hlo & Hhi); unfold inRange.
  apply IZR_le in Hlo, Hhi; lra.
Qed.

Lemma byteColor_colorInRange (v : Vector) : byteColor v -> colorInRange v.
Proof.
  intros (Hx & Hy & Hz); repeat split; apply byteValue_inRange; assumption.
Qed.

Lemma frame_limits (sl : Sliders) (blocks : list (option Block)) (b : Block) :
  maxspeed (frame sl blocks b) = maxspeed b /\
  maxforce (frame sl blocks b) = maxforce b.
Proof.
  unfold frame; rewrite update_maxspeed, update_maxforce.
  split; reflexivity.
Qed.

(** No frame changes the two limits of an agent. *)
Lemma run_limits (frames : list (Sliders * list (option Block))) (b : Block) :
  maxspeed (run frames b) = maxspeed b /\ maxforce (run frames b) = maxforce b.
Proof.
  revert b; induction frames as [| [sl blocks] rest IH]; intros b; simpl.
  - split; reflexivity.
  - destruct (IH (frame sl blocks b)) as [-> ->]; apply frame_limits.
Qed.

Lemma run_speed (frames : list (Sliders * list (option Block))) (b : Block) :
  0 <= maxspeed b -> P5.mag (rgbVel b) <= maxspeed b ->
  P5.mag (rgbVel (run frames b)) <= maxspeed b.
Proof.
  revert b; induction frames as [| [sl blocks] rest IH]; intros b Hms Hv; simpl.
  - exact Hv.
  - destruct (frame_limits sl blocks b) as [Hs _].
    rewrite <- Hs; apply IH; rewrite Hs; [exact Hms |].
    unfold frame; apply (update_speed (flock sl blocks b)); exact Hms.
Qed.

Variables px py s : R.
Variable d : Draws.
Hypothesis drawn : unitDraws d.

(** Every agent the constructor makes satisfies what the bounds on speed
    and force ask for: its limits stay 1.5 and 0.01, and its speed stays
    within 1.5, frame after frame. *)
Lemma new_agent_run (frames : list (Sliders * list (option Block))) :
  P5.mag (rgbVel (run frames (newBlock px py s d))) <= 1.5 /\
  maxspeed (run frames (newBlock px py s d)) = 1.5 /\
  maxforce (run frames (newBlock px py s d)) = 0.01.
Proof.
  split.
  - apply (run_speed frames (newBlock px py s d)); simpl; [lra |].
    change (createVector 0 0 0) with P5.zero; rewrite mag_zero; lra.
  - destruct (run_limits frames (newBlock px py s d)) as [-> ->].
    split; reflexivity.
Qed.

(** A new agent alone in its flock stays as it was made. *)
Lemma new_agent_alone (sls : list Sliders) :
  alone sls (newBlock px py s d) = newBlock px py s d.
Proof.
  destruct drawn as (Hr & Hg & Hb).
  apply alone_fixed; [reflexivity | reflexivity |].
  apply byteColor_colorInRange; repeat split; simpl;
    apply floor_random_byte; assumption.
Qed.

End Constructed.

(** Without any peer slot the rules return the zero vector and [flock]
    leaves the agent as it is. *)
Lemma flock_no_peers (sl : Sliders) (b : Block) :
  separate b [] = P5.zero /\ align b [] = P5.zero /\
  cohesion b [] = P5.zero /\ flock sl [] b = b.
Proof.
  repeat split; try reflexivity.
  unfold flock, applyForce, set_rgbAcc; simpl.
  change (createVector 0 0 0) with P5.zero.
  rewrite !mult_zero_l, !add_zero_r.
  destruct b; reflexivity.
Qed.

(** After a step every agent of the collection has its colour inside the
    cube. *)
Lemma step_colorInRange (sl : Sliders) (l : list Block) :
  Forall (fun b => colorInRange (rgb b)) (step sl l).
Proof.
  rewrite step_snapshot; apply Forall_map, Forall_forall.
  intros b _; apply update_colorInRange.
Qed.

(** ** More on lengths *)

Section Lengths.

Lemma mag_mult_abs (v : Vector) (n : R) :
  P5.mag (P5.mult v n) = Rabs n * P5.mag v.
Proof.
  unfold P5.mag; rewrite magSq_mult.
  rewrite sqrt_mult; [| nra | apply magSq_nonneg].
  change (n * n) with (Rsqr n); rewrite sqrt_Rsqr_abs; reflexivity.
Qed.

Lemma dot_le_mag (u v : Vector) :
  P5.x u * P5.x v + P5.y u * P5.y v + P5.z u * P5.z v <= P5.mag u * P5.mag v.
Proof.
  pose proof (mag_nonneg u) as Hu; pose proof (mag_nonneg v) as Hv.
  pose proof (mag_square u) as Hu2; pose proof (mag_square v) as Hv2.
  set (m := P5.mag u) in *; set (n := P5.mag v) in *.
  set (d := P5.x u * P5.x v + P5.y u * P5.y v + P5.z u * P5.z v).
  assert (Hcs : d * d <= (m * n) * (m * n)).
  { replace ((m * n) * (m * n)) with ((m * m) * (n * n)) by ring.
    rewrite Hu2, Hv2; unfold d, P5.magSq.
    pose proof (Rle_0_sqr (P5.x u * P5.y v - P5.y u * P5.x v)) as H1.
    pose proof (Rle_0_sqr (P5.x u * P5.z v - P5.z u * P5.x v)) as H2.
    pose proof (Rle_0_sqr (P5.y u * P5.z v - P5.z u * P5.y v)) as H3.
    unfold Rsqr in H1, H2, H3; lra. }
  destruct (Rle_lt_dec d (m * n)) as [Hle | Hgt]; [exact Hle |].
  assert (0 <= m * n) by nra.
  nra.
Qed.

(** The triangle inequality. *)
Lemma mag_add (u v : Vector) : P5.mag (P5.add u v) <= P5.mag u + P5.mag v.
Proof.
  pose proof (mag_nonneg u) as Hu; pose proof (mag_nonneg v) as Hv.
  pose proof (mag_square u) as Hu2; pose proof (mag_square v) as Hv2.
  pose proof (dot_le_mag u v) as Hd.
  rewrite <- (sqrt_square (P5.mag u + P5.mag v)) by lra.
  unfold P5.mag at 1; apply sqrt_le_1; [apply magSq_nonneg | nra |].
  unfold P5.magSq in *; simpl; nra.
Qed.

Lemma abs_x_le_mag (v : Vector) : Rabs (P5.x v) <= P5.mag v.
Proof.
  rewrite <- sqrt_Rsqr_abs; unfold P5.mag, Rsqr.
  apply sqrt_le_1; [nra | apply magSq_nonneg | unfold P5.magSq; nra].
Qed.

Lemma abs_y_le_mag (v : Vector) : Rabs (P5.y v) <= P5.mag v.
Proof.
  rewrite <- sqrt_Rsqr_abs; unfold P5.mag, Rsqr.
  apply sqrt_le_1; [nra | apply magSq_nonneg | unfold P5.magSq; nra].
Qed.

Lemma abs_z_le_mag (v : Vector) : Rabs (P5.z v) <= P5.mag v.
Proof.
  rewrite <- sqrt_Rsqr_abs; unfold P5.mag, Rsqr.
  apply sqrt_le_1; [nra | apply magSq_nonneg | unfold P5.magSq; nra].
Qed.

Lemma mag_normalize (v : Vector) : v <> P5.zero -> P5.mag (P5.normalize v) = 1.
Proof.
  intros Hv; unfold P5.normalize.
  destruct (Req_dec_T (P5.mag v) 0) as [Hz | Hnz];
    [elim Hv; apply mag_eq_0, Hz |].
  pose proof (mag_nonneg v) as Hpos.
  rewrite mag_mult by (apply Rlt_le, Rdiv_lt_0_compat; lra).
  field; exact Hnz.
Qed.

(** A direction scaled back to the length of the vector is the vector. *)
Lemma normalize_mult_mag (v : Vector) :
  P5.mult (P5.normalize v) (P5.mag v) = v.
Proof.
  unfold P5.normalize.
  destruct (Req_dec_T (P5.mag v) 0) as [Hz | Hnz].
  - rewrite Hz, (mag_eq_0 v Hz); apply mult_zero_l.
  - apply vector_eq; simpl; field; exact Hnz.
Qed.

Lemma normalize_idem (v : Vector) :
  P5.normalize (P5.normalize v) = P5.normalize v.
Proof.
  destruct (Req_dec_T (P5.mag v) 0) as [Hz | Hnz].
  - rewrite (mag_eq_0 v Hz), !normalize_zero; reflexivity.
  - unfold P5.normalize at 2.
    destruct (Req_dec_T (P5.mag v) 0) as [Hz | _]; [contradiction |].
    pose proof (mag_nonneg v) as Hpos.
    apply normalize_scale, Rdiv_lt_0_compat; lra.
Qed.

Lemma magSq_neg (v : Vector) : P5.magSq (P5.mult v (-1)) = P5.magSq v.
Proof. rewrite magSq_mult; ring. Qed.

Lemma normalize_neg (v : Vector) :
  P5.normalize (P5.mult v (-1)) = P5.mult (P5.normalize v) (-1).
Proof.
  unfold P5.normalize, P5.mag; rewrite magSq_neg.
  destruct (Req_dec_T (sqrt (P5.magSq v)) 0); [reflexivity |].
  apply vector_eq; simpl; ring.
Qed.

Lemma limit_neg (v : Vector) (max : R) :
  P5.limit (P5.mult v (-1)) max = P5.mult (P5.limit v max) (-1).
Proof.
  unfold P5.limit; rewrite magSq_neg.
  destruct (Rgt_dec (P5.magSq v) (max * max)); [| reflexivity].
  unfold P5.div.
  destruct (Req_dec_T (sqrt (P5.magSq v)) 0); apply vector_eq; simpl; lra.
Qed.

End Lengths.

(** ** Forces of one frame *)

(** X1. Forces add up in the accumulator: applying two forces in either
    order is applying their sum, and colour and velocity are not touched. *)
Theorem applyForce_accumulates (f g : Vector) (b : Block) :
  applyForce f (applyForce g b) = applyForce (P5.add g f) b /\
  applyForce f (applyForce g b) = applyForce g (applyForce f b) /\
  rgb (applyForce f b) = rgb b /\ rgbVel (applyForce f b) = rgbVel b.
Proof.
  unfold applyForce, set_rgbAcc; simpl.
  repeat split.
  - rewrite add_assoc; reflexivity.
  - rewrite !add_assoc, (add_comm g f); reflexivity.
Qed.

Lemma flock_rgbAcc (sl : Sliders) (blocks : list (option Block)) (b : Block) :
  rgbAcc (flock sl blocks b) =
  P5.add (P5.add (P5.add (rgbAcc b)
                         (P5.mult (separate b blocks) (sepSlider sl)))
                 (P5.mult (align b blocks) (aliSlider sl)))
         (P5.mult (cohesion b blocks) (cohSlider sl)).
Proof. reflexivity. Qed.

(** X2. One call of [flock] changes the accumulator by a force no longer
    than [maxforce] times the sum of the absolute slider values, whatever
    the peers are, and changes nothing else of the agent. *)
Theorem flock_force_bounded
        (sl : Sliders) (blocks : list (option Block)) (b : Block) :
  0 <= maxforce b ->
  P5.mag (P5.sub (rgbAcc (flock sl blocks b)) (rgbAcc b))
    <= maxforce b
       * (Rabs (sepSlider sl) + Rabs (aliSlider sl) + Rabs (cohSlider sl)) /\
  set_rgbAcc (flock sl blocks b) (rgbAcc b) = b.
Proof.
  intros Hmf; split; [| destruct b; reflexivity].
  rewrite flock_rgbAcc.
  set (s := P5.mult (separate b blocks) (sepSlider sl)).
  set (a := P5.mult (align b blocks) (aliSlider sl)).
  set (c := P5.mult (cohesion b blocks) (cohSlider sl)).
  replace (P5.sub (P5.add (P5.add (P5.add (rgbAcc b) s) a) c) (rgbAcc b))
    with (P5.add (P5.add s a) c) by (apply vector_eq; simpl; lra).
  pose proof (mag_add (P5.add s a) c) as H1.
  pose proof (mag_add s a) as H2.
  assert (Hs : P5.mag s <= maxforce b * Rabs (sepSlider sl)).
  { unfold s; rewrite mag_mult_abs.
    pose proof (separate_bounded b Hmf blocks).
    pose proof (Rabs_pos (sepSlider sl)).
    pose proof (mag_nonneg (separate b blocks)). nra. }
  assert (Ha : P5.mag a <= maxforce b * Rabs (aliSlider sl)).
  { unfold a; rewrite mag_mult_abs.
    pose proof (align_bounded b Hmf blocks).
    pose proof (Rabs_pos (aliSlider sl)).
    pose proof (mag_nonneg (align b blocks)). nra. }
  assert (Hc : P5.mag c <= maxforce b * Rabs (cohSlider sl)).
  { unfold c; rewrite mag_mult_abs.
    pose proof (cohesion_bounded b Hmf blocks).
    pose proof (Rabs_pos (cohSlider sl)).
    pose proof (mag_nonneg (cohesion b blocks)). nra. }
  lra.
Qed.

Lemma flock_force_bounded_witness :
  P5.mag (P5.sub (rgbAcc (flock defaultSliders
                                [Some eastbound; None; Some westbound]
                                eastbound))
                 (rgbAcc eastbound))
    <= 0.01 * (Rabs 1.2 + Rabs 1 + Rabs 2).
Proof.
  apply (flock_force_bounded defaultSliders
           [Some eastbound; None; Some westbound] eastbound).
  simpl; lra.
Defined.

(** ** More on the boundary pass *)

(** X4. A second boundary pass changes nothing: [edges] leaves the colour
    inside the cube, and there it does not touch the agent. *)
Theorem edges_idempotent (b : Block) : edges (edges b) = edges b.
Proof. apply edges_inside, edges_colorInRange. Qed.

(** X5. Whatever colour [setToColor] is given, inside the cube or not, one
    [update] brings every channel into [0, 255]; [setToColor] itself stores
    the three values as they are and leaves velocity and accumulator alone. *)
Theorem setToColor_then_update (r g bl : R) (this : Block) :
  colorInRange (rgb (update (setToColor r g bl this))) /\
  rgb (setToColor r g bl this) = createVector r g bl /\
  rgbVel (setToColor r g bl this) = rgbVel this /\
  rgbAcc (setToColor r g bl this) = rgbAcc this.
Proof.
  split; [apply update_colorInRange | repeat split].
Qed.

(** ** Rendering *)

Lemma frame_geometry (sl : Sliders) (blocks : list (option Block)) (b : Block) :
  pos (frame sl blocks b) = pos b /\ size (frame sl blocks b) = size b.
Proof.
  unfold frame; rewrite update_unfold; simpl.
  match goal with |- pos (edges ?c) = _ /\ _ =>
    destruct (edges_fields c) as (_ & _ & _ & -> & -> & _) end.
  split; reflexivity.
Qed.

Lemma run_geometry (frames : list (Sliders * list (option Block))) (b : Block) :
  pos (run frames b) = pos b /\ size (run frames b) = size b.
Proof.
  revert b; induction frames as [| [sl blocks] rest IH]; intros b; simpl.
  - split; reflexivity.
  - destruct (IH (frame sl blocks b)) as [-> ->]; apply frame_geometry.
Qed.

(** X6. What [display] paints after any run of frames: a square at the
    position and of the size the agent was given, which no frame moves, filled
    with a colour whose three components lie in [0, 255] when the agent
    started inside the cube. *)
Theorem display_after_run
        (frames : list (Sliders * list (option Block))) (b : Block) :
  colorInRange (rgb b) ->
  exists r g bl,
    display (run frames b) =
      [noStroke; fill r g bl;
       rect (P5.x (pos b)) (P5.y (pos b)) (size b) (size b)] /\
    inRange r /\ inRange g /\ inRange bl.
Proof.
  intros Hb.
  exists (P5.x (rgb (run frames b))), (P5.y (rgb (run frames b))),
         (P5.z (rgb (run frames b))).
  split.
  - unfold display; destruct (run_geometry frames b) as [-> ->]; reflexivity.
  - assert (H : colorInRange (rgb (run frames b))).
    { revert b Hb; induction frames as [| [sl blocks] rest IH]; intros b Hb.
      - exact Hb.
      - simpl; apply IH, frame_colorInRange. }
    exact H.
Qed.

Lemma display_after_run_witness :
  exists r g bl,
    display (run [(defaultSliders, [Some westbound]); (defaultSliders, [])]
                 eastbound) =
      [noStroke; fill r g bl; rect 0 0 10 10] /\
    inRange r /\ inRange g /\ inRange bl.
Proof.
  apply (display_after_run
           [(defaultSliders, [Some westbound]); (defaultSliders, [])] eastbound).
  unfold colorInRange, inRange; simpl; lra.
Defined.

(** ** More on integration *)

Section Integration.

Variable b : Block.

Lemma update_x :
  reflected
    (P5.x (rgb b) + P5.x (P5.limit (P5.add (rgbVel b) (rgbAcc b)) (maxspeed b)))
    (P5.x (P5.limit (P5.add (rgbVel b) (rgbAcc b)) (maxspeed b)))
    (P5.x (rgb (update b))) (P5.x (rgbVel (update b))).
Proof.
  rewrite update_unfold; cbn [rgb rgbVel set_rgbAcc].
  match goal with |- context [edges ?c] => exact (edges_x c) end.
Qed.

Lemma update_y :
  reflected
    (P5.y (rgb b) + P5.y (P5.limit (P5.add (rgbVel b) (rgbAcc b)) (maxspeed b)))
    (P5.y (P5.limit (P5.add (rgbVel b) (rgbAcc b)) (maxspeed b)))
    (P5.y (rgb (update b))) (P5.y (rgbVel (update b))).
Proof.
  rewrite update_unfold; cbn [rgb rgbVel set_rgbAcc].
  match goal with |- context [edges ?c] => exact (edges_y c) end.
Qed.

Lemma update_z :
  reflected
    (P5.z (rgb b) + P5.z (P5.limit (P5.add (rgbVel b) (rgbAcc b)) (maxspeed b)))
    (P5.z (P5.limit (P5.add (rgbVel b) (rgbAcc b)) (maxspeed b)))
    (P5.z (rgb (update b))) (P5.z (rgbVel (update b))).
Proof.
  rewrite update_unfold; cbn [rgb rgbVel set_rgbAcc].
  match goal with |- context [edges ?c] => exact (edges_z c) end.
Qed.

Lemma reflected_step (c u c' u' : R) :
  inRange c -> reflected (c + u) u c' u' -> Rabs (c' - c) <= Rabs u.
Proof.
  unfold inRange, reflected; intros Hc (Hhi & Hlo & Hin).
  destruct (Rgt_dec (c + u) 255) as [H | H].
  - destruct (Hhi H) as [-> _].
    rewrite !Rabs_right by lra; lra.
  - destruct (Rlt_dec (c + u) 0) as [H0 | H0].
    + destruct (Hlo H0) as [-> _].
      rewrite !Rabs_left1 by lra; lra.
    + destruct Hin as [-> _]; [lra |].
      replace (c + u - c) with u by ring; lra.
Qed.

Lemma reflected_inward (c u c' u' : R) :
  inRange c -> reflected (c + u) u c' u' -> bouncesInward c u c' u'.
Proof.
  unfold inRange, reflected, bouncesInward; intros Hc (Hhi & Hlo & _).
  split; intros H.
  - destruct (Hhi H) as [-> ->]; split; lra.
  - destruct (Hlo H) as [-> ->]; split; lra.
Qed.

End Integration.

(** X7. From a colour inside the cube, one [update] moves every colour
    channel by at most [maxspeed]. *)
Theorem update_moves_at_most_maxspeed (b : Block) :
  colorInRange (rgb b) -> 0 <= maxspeed b ->
  Rabs (P5.x (rgb (update b)) - P5.x (rgb b)) <= maxspeed b /\
  Rabs (P5.y (rgb (update b)) - P5.y (rgb b)) <= maxspeed b /\
  Rabs (P5.z (rgb (update b)) - P5.z (rgb b)) <= maxspeed b.
Proof.
  intros (Hx & Hy & Hz) Hms.
  pose proof (mag_limit (P5.add (rgbVel b) (rgbAcc b)) (maxspeed b) Hms) as Hv.
  pose proof (reflected_step _ _ _ _ Hx (update_x b)) as Sx.
  pose proof (reflected_step _ _ _ _ Hy (update_y b)) as Sy.
  pose proof (reflected_step _ _ _ _ Hz (update_z b)) as Sz.
  revert Hv Sx Sy Sz.
  generalize (P5.limit (P5.add (rgbVel b) (rgbAcc b)) (maxspeed b)).
  intros v Hv Sx Sy Sz.
  pose proof (abs_x_le_mag v); pose proof (abs_y_le_mag v);
    pose proof (abs_z_le_mag v).
  repeat split; lra.
Qed.

Lemma update_moves_at_most_maxspeed_witness :
  Rabs (P5.x (rgb (update eastbound)) - 100) <= 1.5 /\
  Rabs (P5.y (rgb (update eastbound)) - 100) <= 1.5 /\
  Rabs (P5.z (rgb (update eastbound)) - 100) <= 1.5.
Proof.
  apply (update_moves_at_most_maxspeed eastbound).
  - unfold colorInRange, inRange; simpl; lra.
  - simpl; lra.
Defined.

(** X8. From a colour inside the cube, a channel that the new velocity
    carries past a bound ends on that bound with its velocity component
    pointing back into the cube. *)
Theorem update_bounces_inward (b : Block) :
  colorInRange (rgb b) ->
  bouncesInward
    (P5.x (rgb b))
    (P5.x (P5.limit (P5.add (rgbVel b) (rgbAcc b)) (maxspeed b)))
    (P5.x (rgb (update b))) (P5.x (rgbVel (update b))) /\
  bouncesInward
    (P5.y (rgb b))
    (P5.y (P5.limit (P5.add (rgbVel b) (rgbAcc b)) (maxspeed b)))
    (P5.y (rgb (update b))) (P5.y (rgbVel (update b))) /\
  bouncesInward
    (P5.z (rgb b))
    (P5.z (P5.limit (P5.add (rgbVel b) (rgbAcc b)) (maxspeed b)))
    (P5.z (rgb (update b))) (P5.z (rgbVel (update b))).
Proof.
  intros (Hx & Hy & Hz).
  split; [| split].
  - apply (reflected_inward _ _ _ _ Hx), update_x.
  - apply (reflected_inward _ _ _ _ Hy), update_y.
  - apply (reflected_inward _ _ _ _ Hz), update_z.
Qed.

(** An agent one frame before the upper bound of the red channel. *)
Lemma update_bounces_inward_witness :
  P5.x (rgb (update (mkBlock P5.zero (createVector 254.5 10 10)
                             (createVector 1 0 0) P5.zero 10 15 1.5 0.01)))
  = 255 /\
  P5.x (rgbVel (update (mkBlock P5.zero (createVector 254.5 10 10)
                                (createVector 1 0 0) P5.zero 10 15 1.5 0.01)))
  < 0.
Proof.
  destruct (update_bounces_inward
              (mkBlock P5.zero (createVector 254.5 10 10)
                       (createVector 1 0 0) P5.zero 10 15 1.5 0.01))
    as ((Hhi & _) & _).
  - unfold colorInRange, inRange; simpl; lra.
  - apply Hhi.
    rewrite limit_short by (unfold P5.magSq; simpl; lra).
    simpl; lra.
Defined.

(** X9. Coasting: an agent with an empty accumulator, a velocity within
    [maxspeed] and a next colour inside the cube moves by its velocity and
    keeps it. *)
Theorem update_coasts (b : Block) :
  rgbAcc b = P5.zero ->
  P5.magSq (rgbVel b) <= maxspeed b * maxspeed b ->
  colorInRange (P5.add (rgb b) (rgbVel b)) ->
  update b = set_rgb b (P5.add (rgb b) (rgbVel b)).
Proof.
  intros Ha Hv Hc.
  rewrite update_unfold, Ha, add_zero_r, (limit_short _ _ Hv).
  rewrite edges_inside by exact Hc.
  destruct b as [p c v a sz rd ms mf]; simpl in *; subst a; reflexivity.
Qed.

Lemma update_coasts_witness :
  update eastbound = set_rgb eastbound (createVector 101 100 100).
Proof.
  replace (createVector 101 100 100)
    with (P5.add (rgb eastbound) (rgbVel eastbound))
    by (apply vector_eq; simpl; lra).
  apply (update_coasts eastbound).
  - reflexivity.
  - unfold P5.magSq; simpl; lra.
  - unfold colorInRange, inRange; simpl; lra.
Defined.

(** ** The rules at rest and in formation *)

Section AtRest.

Lemma sub_zero_r (u : Vector) : P5.sub u P5.zero = u.
Proof. apply vector_eq; simpl; lra. Qed.

Lemma sub_eq_zero (u w : Vector) : P5.sub u w = P5.zero -> u = w.
Proof.
  intros H; apply vector_eq;
    [apply (f_equal P5.x) in H | apply (f_equal P5.y) in H
     | apply (f_equal P5.z) in H]; simpl in H; lra.
Qed.

Lemma sub_swap (u w : Vector) : P5.sub w u = P5.mult (P5.sub u w) (-1).
Proof. apply vector_eq; simpl; lra. Qed.

Variable this : Block.
Hypothesis still : rgbVel this = P5.zero.

(** At rest the steering is the direction scaled to [maxspeed] and limited
    to [maxforce]; opposite directions give opposite steerings. *)
Lemma steerAlong_neg (dir : Vector) :
  steerAlong this (P5.mult dir (-1)) = P5.mult (steerAlong this dir) (-1).
Proof.
  unfold steerAlong; rewrite still, !sub_zero_r, normalize_neg.
  rewrite <- limit_neg; f_equal.
  apply vector_eq; simpl; ring.
Qed.

Lemma steerAlong_full (dir : Vector) :
  dir <> P5.zero -> 0 <= maxforce this < maxspeed this ->
  steerAlong this dir = P5.mult (P5.normalize dir) (maxforce this).
Proof.
  intros Hd [Hmf Hms].
  unfold steerAlong; rewrite still, sub_zero_r.
  pose proof (mag_normalize dir Hd) as Hn.
  pose proof (mag_square (P5.normalize dir)) as Hsq; rewrite Hn in Hsq.
  unfold P5.limit; rewrite magSq_mult, <- Hsq.
  destruct (Rgt_dec (maxspeed this * maxspeed this * (1 * 1))
                    (maxforce this * maxforce this)) as [_ | Hle]; [| nra].
  replace (maxspeed this * maxspeed this * (1 * 1))
    with (maxspeed this * maxspeed this) by ring.
  rewrite sqrt_square by lra.
  rewrite div_as_mult by lra.
  apply vector_eq; simpl; field; lra.
Qed.

End AtRest.

(** X10. An agent at rest that seeks a colour other than its own is steered
    straight towards it with all the force it has: the result is the unit
    direction to the target times [maxforce]. *)
Theorem seek_from_rest (this : Block) (target : Vector) :
  rgbVel this = P5.zero -> target <> rgb this ->
  0 <= maxforce this < maxspeed this ->
  seek this target =
    P5.mult (P5.normalize (P5.sub target (rgb this))) (maxforce this) /\
  P5.mag (seek this target) = maxforce this.
Proof.
  intros Hv Ht Hm.
  assert (Hd : P5.sub target (rgb this) <> P5.zero)
    by (intros H; apply Ht, sub_eq_zero, H).
  assert (Hs : seek this target =
               P5.mult (P5.normalize (P5.sub target (rgb this))) (maxforce this))
    by (apply (steerAlong_full this Hv _ Hd Hm)).
  split; [exact Hs |].
  rewrite Hs, mag_mult, (mag_normalize _ Hd) by lra; ring.
Qed.

Lemma seek_from_rest_witness :
  seek (mkBlock P5.zero (createVector 10 20 30) P5.zero P5.zero 10 15 1.5 0.01)
       (createVector 200 20 30)
  = P5.mult (P5.normalize (P5.sub (createVector 200 20 30)
                                  (createVector 10 20 30))) 0.01 /\
  P5.mag (seek (mkBlock P5.zero (createVector 10 20 30) P5.zero P5.zero
                        10 15 1.5 0.01)
               (createVector 200 20 30)) = 0.01.
Proof.
  apply (seek_from_rest
           (mkBlock P5.zero (createVector 10 20 30) P5.zero P5.zero
                    10 15 1.5 0.01)
           (createVector 200 20 30)).
  - reflexivity.
  - intros H; apply (f_equal P5.x) in H; simpl in H; lra.
  - simpl; lra.
Defined.

(** X11. In a flock of two, for an agent at rest, cohesion is the exact
    opposite of separation: one pulls towards the other agent as hard as
    the other pushes away from it. *)
Theorem two_agents_cohesion_opposes_separation
        (a other : Block) (blocks : list (option Block)) :
  rgbVel a = P5.zero ->
  Permutation (live blocks) [a; other] ->
  cohesion a blocks = P5.mult (separate a blocks) (-1).
Proof.
  intros Hv Hp.
  rewrite cohesion_live, separate_live.
  rewrite (cohesionOver_perm a _ _ Hp), (separateOver_perm a _ _ Hp).
  rewrite cohesionOver_self, separateOver_self.
  unfold cohesionOver, separateOver; cbn [map length vsum fold_right].
  rewrite !add_zero_r, !div_one.
  change (seek a (rgb other)) with (steerAlong a (P5.sub (rgb other) (rgb a))).
  rewrite (sub_swap (rgb a) (rgb other)), (steerAlong_neg a Hv).
  unfold steerAlong; rewrite normalize_idem; reflexivity.
Qed.

Lemma two_agents_cohesion_opposes_separation_witness :
  cohesion (set_rgbVel eastbound P5.zero)
           [Some westbound; None; Some (set_rgbVel eastbound P5.zero)]
  = P5.mult (separate (set_rgbVel eastbound P5.zero)
                      [Some westbound; None; Some (set_rgbVel eastbound P5.zero)])
            (-1).
Proof.
  apply (two_agents_cohesion_opposes_separation
           (set_rgbVel eastbound P5.zero) westbound).
  - reflexivity.
  - simpl; apply perm_swap.
Defined.

Lemma vsum_constant (u : Vector) (vs : list Vector) :
  Forall (fun w => w = u) vs -> vsum vs = P5.mult u (INR (length vs)).
Proof.
  induction 1 as [| w vs -> _ IH].
  - simpl; symmetry; apply mult_0.
  - cbn [vsum fold_right]; fold (vsum vs); rewrite IH.
    change (length (u :: vs)) with (S (length vs)); rewrite S_INR.
    apply vector_eq; simpl; ring.
Qed.

Lemma div_mult_cancel (u : Vector) (n : R) :
  n <> 0 -> P5.div (P5.mult u n) n = u.
Proof.
  intros Hn; rewrite div_as_mult by exact Hn.
  apply vector_eq; simpl; field; exact Hn.
Qed.

(** X12. A flock in formation: when every agent of the peer array has the
    velocity of this agent and that velocity has length [maxspeed], [align]
    returns the zero vector. *)
Theorem align_in_formation (this : Block) (blocks : list (option Block)) :
  Forall (fun other => rgbVel other = rgbVel this) (live blocks) ->
  P5.mag (rgbVel this) = maxspeed this ->
  align this blocks = P5.zero.
Proof.
  intros Hall Hms.
  rewrite align_live; unfold alignOver.
  destruct (live blocks) as [| p ps] eqn:Hl; [reflexivity |].
  rewrite (vsum_constant (rgbVel this)), length_map
    by (apply Forall_map; exact Hall).
  pose proof (INR_S_pos (length ps)) as Hn.
  change (length (p :: ps)) with (S (length ps)).
  rewrite div_mult_cancel by lra.
  unfold steerAlong.
  rewrite <- Hms, normalize_mult_mag, sub_self; apply limit_zero.
Qed.

Lemma align_in_formation_witness :
  align (set_rgbVel eastbound (createVector 1.5 0 0))
        [Some (set_rgbVel westbound (createVector 1.5 0 0)); None;
         Some (set_rgbVel eastbound (createVector 1.5 0 0))]
  = P5.zero.
Proof.
  apply (align_in_formation (set_rgbVel eastbound (createVector 1.5 0 0))).
  - repeat constructor.
  - simpl; apply mag_axis; lra.
Defined.

(** ** Speed over the frames *)

(** [limit] never makes a vector longer. *)
Lemma mag_limit_le (u : Vector) (max : R) : P5.mag (P5.limit u max) <= P5.mag u.
Proof.
  unfold P5.limit.
  destruct (Rgt_dec (P5.magSq u) (max * max)) as [Hgt | _]; [| lra].
  assert (Hpos : 0 < P5.magSq u) by nra.
  assert (Hs : 0 < sqrt (P5.magSq u)) by (apply sqrt_lt_R0; exact Hpos).
  rewrite mag_mult_abs, div_as_mult by lra.
  rewrite mag_mult by (apply Rlt_le, Rinv_0_lt_compat; exact Hs).
  fold (P5.mag u) in *.
  replace (Rabs max * (/ P5.mag u * P5.mag u)) with (Rabs max) by (field; lra).
  pose proof (mag_square u) as Hsq.
  pose proof (Rabs_pos max) as Hab.
  assert (Hm : Rabs max * Rabs max = max * max).
  { unfold Rabs; destruct (Rcase_abs max); ring. }
  destruct (Rle_lt_dec (Rabs max) (P5.mag u)) as [H | H]; [exact H | nra].
Qed.

(** X14. An agent the constructor made never moves faster than 1.5 and
    keeps the limits 1.5 and 0.01, whatever frames it goes through. *)
Theorem constructed_agent_speed
        (px py s : R) (d : Draws)
        (frames : list (Sliders * list (option Block))) :
  P5.mag (rgbVel (run frames (newBlock px py s d))) <= 1.5 /\
  maxspeed (run frames (newBlock px py s d)) = 1.5 /\
  maxforce (run frames (newBlock px py s d)) = 0.01.
Proof.
  split.
  - apply (run_speed frames (newBlock px py s d)); simpl; [lra |].
    change (createVector 0 0 0) with P5.zero; rewrite mag_zero; lra.
  - destruct (run_limits frames (newBlock px py s d)) as [-> ->].
    split; reflexivity.
Qed.

(** X15. A frame that starts with an empty accumulator raises the speed of
    the agent by at most [maxforce] times the sum of the absolute slider
    values. *)
Theorem frame_speed_gain
        (sl : Sliders) (blocks : list (option Block)) (b : Block) :
  rgbAcc b = P5.zero -> 0 <= maxforce b ->
  P5.mag (rgbVel (frame sl blocks b))
    <= P5.mag (rgbVel b)
       + maxforce b
         * (Rabs (sepSlider sl) + Rabs (aliSlider sl) + Rabs (cohSlider sl)).
Proof.
  intros Ha Hmf; unfold frame.
  unfold P5.mag at 1; rewrite update_magSq; fold (P5.mag
    (P5.limit (P5.add (rgbVel (flock sl blocks b)) (rgbAcc (flock sl blocks b)))
              (maxspeed (flock sl blocks b)))).
  eapply Rle_trans; [apply mag_limit_le |].
  eapply Rle_trans; [apply mag_add |].
  change (rgbVel (flock sl blocks b)) with (rgbVel b).
  apply Rplus_le_compat_l.
  rewrite flock_rgbAcc, Ha.
  set (s := P5.mult (separate b blocks) (sepSlider sl)).
  set (a := P5.mult (align b blocks) (aliSlider sl)).
  set (c := P5.mult (cohesion b blocks) (cohSlider sl)).
  rewrite add_zero_l.
  pose proof (mag_add (P5.add s a) c) as H1.
  pose proof (mag_add s a) as H2.
  assert (Hs : P5.mag s <= maxforce b * Rabs (sepSlider sl)).
  { unfold s; rewrite mag_mult_abs.
    pose proof (separate_bounded b Hmf blocks).
    pose proof (Rabs_pos (sepSlider sl)). nra. }
  assert (Hal : P5.mag a <= maxforce b * Rabs (aliSlider sl)).
  { unfold a; rewrite mag_mult_abs.
    pose proof (align_bounded b Hmf blocks).
    pose proof (Rabs_pos (aliSlider sl)). nra. }
  assert (Hc : P5.mag c <= maxforce b * Rabs (cohSlider sl)).
  { unfold c; rewrite mag_mult_abs.
    pose proof (cohesion_bounded b Hmf blocks).
    pose proof (Rabs_pos (cohSlider sl)). nra. }
  lra.
Qed.

Lemma frame_speed_gain_witness :
  P5.mag (rgbVel (frame defaultSliders [Some westbound; Some drifting] drifting))
    <= P5.mag (rgbVel drifting) + 0.01 * (Rabs 1.2 + Rabs 1 + Rabs 2).
Proof.
  apply (frame_speed_gain defaultSliders [Some westbound; Some drifting] drifting).
  - reflexivity.
  - simpl; lra.
Defined.

(** X16. The boundary pass never changes the speed of the agent: it flips
    signs of velocity components and nothing else of the velocity, and it
    leaves the accumulator, the limits and the screen slot as they are. *)
Theorem edges_keeps_speed (b : Block) :
  P5.mag (rgbVel (edges b)) = P5.mag (rgbVel b) /\
  Rabs (P5.x (rgbVel (edges b))) = Rabs (P5.x (rgbVel b)) /\
  Rabs (P5.y (rgbVel (edges b))) = Rabs (P5.y (rgbVel b)) /\
  Rabs (P5.z (rgbVel (edges b))) = Rabs (P5.z (rgbVel b)) /\
  rgbAcc (edges b) = rgbAcc b /\ maxspeed (edges b) = maxspeed b /\
  maxforce (edges b) = maxforce b /\ pos (edges b) = pos b /\
  size (edges b) = size b.
Proof.
  destruct (edges_fields b) as (Ha & Hs & Hf & Hp & Hz & _).
  split; [unfold P5.mag; rewrite edges_magSq; reflexivity |].
  repeat split; try assumption.
  - rewrite <- !sqrt_Rsqr_abs; unfold Rsqr.
    rewrite (reflected_square _ _ _ _ (edges_x b)); reflexivity.
  - rewrite <- !sqrt_Rsqr_abs; unfold Rsqr.
    rewrite (reflected_square _ _ _ _ (edges_y b)); reflexivity.
  - rewrite <- !sqrt_Rsqr_abs; unfold Rsqr.
    rewrite (reflected_square _ _ _ _ (edges_z b)); reflexivity.
Qed.
